(** * URL submission: validation gate and record store

    A shallow embedding of the two tRPC procedures of
    [apps/web/server/api/routers/urlSummary.ts] ([list] and [create]), of the
    client-side check of [apps/web/app/page.tsx] ([urlSchema], [onSubmit]) and
    of the [UrlSummary] table of the migration, followed by the properties the
    specification states about them. The submit button of the form and the
    collapsed state that [components/app-shell.tsx] keeps in [localStorage]
    are embedded too, with what the code shows about them.

    Strings stand for well-formed JS strings in their UTF-8 encoding.

    What lives outside the repository is kept abstract:
    - whether the URL parser takes a text is a Section variable
      [url_format]; zod's [.url()] trims the string, asks the parser about
      the trimmed text and, when the parser takes it, hands the trimmed text
      on; like every check of a string schema it lets the checks after it
      run whether or not it found an issue;
    - the identifier and the timestamp that the ORM and the database supply
      to a new row come with each request, as an [Env];
    - the database refuses an INSERT for a taken [id], for a NUL byte in a
      TEXT value, and for a [url] whose entry in [UrlSummary_url_idx] does
      not fit a btree page; the last depends on how the value compresses and
      is a Section variable [index_row_fits];
    - the order in which the database returns rows that tie on the sort key
      is left open: [findMany] is a relation, with one executable instance. *)

From Stdlib Require Import String Ascii List ZArith Lia Bool Permutation Sorted.
Import ListNotations.
Open Scope string_scope.
Open Scope list_scope.
#[local] Set Warnings "-register-all".

(** ** Values that reach a procedure *)

(** The deserialised request body is an arbitrary JS value. *)
Inductive value : Type :=
| VUndefined
| VNull
| VBool (b : bool)
| VNumber (n : Z)
| VString (s : string)
| VArray (items : list value)
| VObject (fields : list (string * value)).

(** Property access: a key that is absent reads as [undefined]. *)
Fixpoint get (k : string) (fields : list (string * value)) : value :=
  match fields with
  | [] => VUndefined
  | (k', v) :: rest => if String.eqb k k' then v else get k rest
  end.

(** [String.prototype.startsWith]. *)
Definition startsWith (s p : string) : bool := String.prefix p s.

(** The scheme of a string read as a URL: what precedes the first colon. *)
Fixpoint scheme_of (s : string) : option string :=
  match s with
  | EmptyString => None
  | String c rest =>
      if Ascii.eqb c ":" then Some EmptyString
      else option_map (String c) (scheme_of rest)
  end.

(** ** White space *)

Definition bytes (l : list nat) : list ascii := map ascii_of_nat l.

(** The white space of the language (WhiteSpace and LineTerminator), each
    code point by the bytes of its encoding: U+0009 to U+000D, U+0020,
    U+00A0, U+1680, U+2000 to U+200A, U+2028, U+2029, U+202F, U+205F,
    U+3000 and U+FEFF. *)
Definition white_space : list (list ascii) :=
  map bytes
    [[9]; [10]; [11]; [12]; [13]; [32]; [194; 160]; [225; 154; 128];
     [226; 128; 128]; [226; 128; 129]; [226; 128; 130]; [226; 128; 131];
     [226; 128; 132]; [226; 128; 133]; [226; 128; 134]; [226; 128; 135];
     [226; 128; 136]; [226; 128; 137]; [226; 128; 138];
     [226; 128; 168]; [226; 128; 169]; [226; 128; 175]; [226; 129; 159];
     [227; 128; 128]; [239; 187; 191]].

Fixpoint starts_with_bytes (w l : list ascii) : bool :=
  match w, l with
  | [], _ => true
  | _ :: _, [] => false
  | a :: w', b :: l' => Ascii.eqb a b && starts_with_bytes w' l'
  end.

(** The length of the code of [codes] that [l] begins with, 0 when it
    begins with none. *)
Definition code_at_head (codes : list (list ascii)) (l : list ascii) : nat :=
  match find (fun w => starts_with_bytes w l) codes with
  | Some w => length w
  | None => 0
  end.

(** Codes are taken off the head for as long as there is one; [skip]
    counts the bytes still to pass of the code being taken off. *)
Fixpoint drop_codes_from (codes : list (list ascii)) (skip : nat)
  (l : list ascii) : list ascii :=
  match l with
  | [] => []
  | _ :: rest =>
      match skip with
      | S k => drop_codes_from codes k rest
      | O =>
          match code_at_head codes l with
          | O => l
          | S k => drop_codes_from codes k rest
          end
      end
  end.

Definition drop_codes (codes : list (list ascii)) (l : list ascii)
  : list ascii :=
  drop_codes_from codes 0 l.

Definition trimStart_bytes (l : list ascii) : list ascii :=
  drop_codes white_space l.

Definition trimEnd_bytes (l : list ascii) : list ascii :=
  rev (drop_codes (map (@rev ascii) white_space) (rev l)).

(** [String.prototype.trim]: white space goes from both ends. *)
Definition trim (s : string) : string :=
  string_of_list_ascii
    (trimEnd_bytes (trimStart_bytes (list_ascii_of_string s))).

(** The text is empty or white space throughout. *)
Definition all_white_space (s : string) : Prop :=
  exists ws, Forall (fun w => In w white_space) ws /\
             list_ascii_of_string s = concat ws.

(** ** Issues and parse results *)

Inductive issue_code : Type :=
| invalid_type (expected : string)
| invalid_format (format : string)
| custom (message : string).

Record issue : Type := mkIssue { code : issue_code; path : list string }.

(** The two rejection reasons of the validation gate, under the names the
    specification gives them. *)
Definition InvalidUrl : issue_code := invalid_format "url".
Definition SchemeNotAllowed : issue_code := custom "Only HTTPS URLs are allowed".

Inductive SafeParseResult (A : Type) : Type :=
| success (data : A)
| failure (issues : list issue).
Arguments success {A} data.
Arguments failure {A} issues.

Definition issues_of {A} (r : SafeParseResult A) : list issue :=
  match r with success _ => [] | failure l => l end.

Definition is_success {A} (r : SafeParseResult A) : bool :=
  match r with success _ => true | failure _ => false end.

(** The reason a rejection is reported with is the first issue
    ([validationResult.error.issues[0]] in [onSubmit]). *)
Definition rejection_reason {A} (r : SafeParseResult A) : option issue_code :=
  match issues_of r with [] => None | i :: _ => Some (code i) end.

(** ** String schemas *)

(** A check looks at the string, pushes the issues it finds and hands the
    string on, as it is or rewritten. *)
Definition check : Type := string -> list issue_code * string.

Record ZodString : Type := { checks : list check }.

Definition z_string : ZodString := {| checks := [] |}.

(** [.refine(p, { message })] appends a check; it does not abort the ones
    after it, nor is it skipped when an earlier one has pushed an issue. *)
Definition refine (p : string -> bool) (message : string) (z : ZodString)
  : ZodString :=
  {| checks := checks z ++
       [fun s => (if p s then [] else [custom message], s)] |}.

(** The checks run in order, each on what the one before handed on. *)
Fixpoint run_checks (cs : list check) (s : string)
  : list issue_code * string :=
  match cs with
  | [] => ([], s)
  | c :: rest =>
      let (found, s1) := c s in
      let (more, out) := run_checks rest s1 in
      (found ++ more, out)
  end.

(** Parsing with a string schema: a non-string is a type issue and no check
    runs; a string goes through every check, and with no issue found the
    output is what the last check handed on. *)
Definition safeParse (z : ZodString) (p : list string) (v : value)
  : SafeParseResult string :=
  match v with
  | VString s =>
      match run_checks (checks z) s with
      | ([], out) => success out
      | (cs, _) => failure (map (fun c => mkIssue c p) cs)
      end
  | _ => failure [mkIssue (invalid_type "string") p]
  end.

(** [.optional()]: [undefined] is accepted as absent. *)
Definition optional {A} (parse : list string -> value -> SafeParseResult A)
  (p : list string) (v : value) : SafeParseResult (option A) :=
  match v with
  | VUndefined => success None
  | _ => match parse p v with
         | success a => success (Some a)
         | failure l => failure l
         end
  end.

(** ** The table *)

(** One row of ["UrlSummary"]; [summary] is the only nullable column. *)
Record UrlSummary : Type := mkUrlSummary {
  id : string;
  url : string;
  summary : option string;
  createdAt : Z;
  updatedAt : Z
}.

Definition table : Type := list UrlSummary.

(** What the ORM and the database add to a new row: the [cuid()] default of
    [id] and the current time ([createdAt] default, [updatedAt]). *)
Record Env : Type := { cuid : string; now : Z }.

(** Why the database refuses an INSERT. *)
Inductive PrismaResult (A : Type) : Type :=
| resolved (a : A)
| unique_violation
| invalid_byte_sequence
| index_row_too_large.
Arguments resolved {A} a.
Arguments unique_violation {A}.
Arguments invalid_byte_sequence {A}.
Arguments index_row_too_large {A}.

Definition has_id (i : string) (t : table) : bool :=
  existsb (fun r => String.eqb (id r) i) t.

(** A TEXT value cannot hold the byte 0. *)
Fixpoint has_nul (s : string) : bool :=
  match s with
  | EmptyString => false
  | String c rest => Ascii.eqb c zero || has_nul rest
  end.

Definition summary_has_nul (s : option string) : bool :=
  match s with
  | Some text => has_nul text
  | None => false
  end.

(** [prisma.urlSummary.create({ data: { url, summary } })]: one INSERT.
    It is refused for a NUL byte in [url] or [summary], for an [id] that
    the primary key already holds, and for a [url] whose index entry does
    not fit; an [undefined] summary is stored as NULL. *)
Definition prisma_create (index_row_fits : string -> bool)
  (e : Env) (t : table) (data_url : string) (data_summary : option string)
  : table * PrismaResult UrlSummary :=
  if has_nul data_url || summary_has_nul data_summary
  then (t, invalid_byte_sequence)
  else if has_id (cuid e) t then (t, unique_violation)
  else if negb (index_row_fits data_url) then (t, index_row_too_large)
  else
    let r := {| id := cuid e; url := data_url; summary := data_summary;
                createdAt := now e; updatedAt := now e |} in
    (t ++ [r], resolved r).

(** [ORDER BY "createdAt" DESC]. *)
Definition newest_first (l : list UrlSummary) : Prop :=
  StronglySorted (fun a b => (createdAt b <= createdAt a)%Z) l.

(** [prisma.urlSummary.findMany({ orderBy: { createdAt: "desc" }, take })]:
    the first [take] rows of the table put newest first. The query names no
    second sort key, so every arrangement of rows with equal [createdAt] is
    a possible answer. *)
Definition findMany (take : nat) (t : table) (res : list UrlSummary) : Prop :=
  exists l, Permutation l t /\ newest_first l /\ res = firstn take l.

(** One answer, computed: insertion into a newest-first list, a row going
    behind the rows it ties with. *)
Fixpoint insert_desc (r : UrlSummary) (l : list UrlSummary) : list UrlSummary :=
  match l with
  | [] => [r]
  | x :: rest =>
      if (createdAt x <? createdAt r)%Z then r :: l
      else x :: insert_desc r rest
  end.

Definition order_desc (t : table) : list UrlSummary :=
  fold_right insert_desc [] t.

Definition findMany_run (take : nat) (t : table) : list UrlSummary :=
  firstn take (order_desc t).

(** ** Requests and responses *)

Inductive response : Type :=
| OK_list (rows : list UrlSummary)
| OK_record (row : UrlSummary)
| BAD_REQUEST (issues : list issue)
| INTERNAL_SERVER_ERROR.

Record CreateInput : Type := {
  input_url : string;
  input_summary : option string
}.

(** A request body as a well-behaved client builds it. *)
Definition create_request (u : string) (s : option string) : value :=
  VObject (("url", VString u) ::
           match s with
           | Some text => [("summary", VString text)]
           | None => []
           end).

(** ** Stand-ins to run the model on examples *)

Definition in_range (lo hi : nat) (c : ascii) : bool :=
  let n := nat_of_ascii c in (lo <=? n)%nat && (n <=? hi)%nat.

Definition is_alpha (c : ascii) : bool := in_range 65 90 c || in_range 97 122 c.

Definition is_digit (c : ascii) : bool := in_range 48 57 c.

Definition is_one_of (cs : string) (c : ascii) : bool :=
  existsb (Ascii.eqb c) (list_ascii_of_string cs).

Definition lower (c : ascii) : ascii :=
  if in_range 65 90 c then ascii_of_nat (nat_of_ascii c + 32) else c.

Fixpoint lowercase (s : string) : string :=
  match s with
  | EmptyString => EmptyString
  | String c rest => String (lower c) (lowercase rest)
  end.

Definition scheme_chars_ok (sch : string) : bool :=
  match sch with
  | EmptyString => false
  | String c rest =>
      is_alpha c &&
      forallb (fun x => is_alpha x || is_digit x || is_one_of "+-." x)
        (list_ascii_of_string rest)
  end.

Fixpoint after_colon (s : string) : string :=
  match s with
  | EmptyString => EmptyString
  | String c rest => if Ascii.eqb c ":" then rest else after_colon rest
  end.

Fixpoint skip_slashes (s : string) : string :=
  match s with
  | EmptyString => EmptyString
  | String c rest => if is_one_of "/\" c then skip_slashes rest else s
  end.

Fixpoint host_part (s : string) : string :=
  match s with
  | EmptyString => EmptyString
  | String c rest =>
      if is_one_of "/\?#:" c then EmptyString else String c (host_part rest)
  end.

Definition forbidden_in_host (c : ascii) : bool :=
  in_range 0 32 c || is_one_of "<>@[]^|%" c || in_range 127 127 c.

(** A stand-in for the URL parser, which is not part of the repository. It
    goes the parser's way from the scheme to the host: a scheme of a letter
    and then letters, digits, [+], [-] or [.] before the first colon; after
    a special scheme any run of slashes, then a host that is not empty and
    holds no forbidden code point; after another scheme anything. Whatever
    follows the host is taken, spaces included. Credentials, ports, address
    literals and international host names are beyond it. *)
Definition sample_url_format (s : string) : bool :=
  match scheme_of s with
  | None => false
  | Some sch =>
      scheme_chars_ok sch &&
      (if existsb (String.eqb (lowercase sch))
            ["http"; "https"; "ftp"; "ws"; "wss"]
       then
         let host := host_part (skip_slashes (after_colon s)) in
         negb (String.eqb host "") &&
         forallb (fun c => negb (forbidden_in_host c))
           (list_ascii_of_string host)
       else true)
  end.

(** A stand-in for the index: the entry of a [url] of at most 2000 bytes
    fits whatever its content; a longer one is taken not to fit. *)
Definition sample_index_row_fits (u : string) : bool :=
  (String.length u <=? 2000)%nat.

(** Sample data for the examples: three environments, two of them with the
    same clock reading, and the rows they give. *)
Definition article : string := "https://example.com/article".

Definition env_a : Env := {| cuid := "ckv0a"; now := 10 |}.
Definition env_b : Env := {| cuid := "ckv0b"; now := 5 |}.
Definition env_c : Env := {| cuid := "ckv0c"; now := 10 |}.

Definition row_of (e : Env) (u : string) (s : option string) : UrlSummary :=
  mkUrlSummary (cuid e) u s (now e) (now e).

Definition row_a : UrlSummary := row_of env_a article None.
Definition row_b : UrlSummary := row_of env_b article None.
Definition row_c : UrlSummary := row_of env_c article None.

(** Twenty-two rows, one per clock tick. *)
Definition many_rows : table :=
  map (fun n => mkUrlSummary (String (ascii_of_nat (65 + n)) EmptyString)
                  article None (Z.of_nat n) (Z.of_nat n))
      (seq 0 22).

(** Texts with white space at the ends and texts with a NUL byte. *)
Definition padded_article : string := " https://example.com/article ".

Definition nbsp_article : string :=
  String (ascii_of_nat 194) (String (ascii_of_nat 160) article).

Definition text_with_nul : string := String "a" (String zero "b").

Definition url_with_nul : string := String.append article (String zero "b").

(** ** The form and the shell around it *)

(** The submit button of [page.tsx]:
    [disabled={!url.trim() || createMutation.isPending}]. *)
Definition submit_disabled (url : string) (isPending : bool) : bool :=
  String.eqb (trim url) "" || isPending.

(** [window.localStorage]: access may throw, for reading or for writing. *)
Inductive outcome (A : Type) : Type :=
| returns (a : A)
| throws.
Arguments returns {A} a.
Arguments throws {A}.

Record Storage : Type := {
  read_throws : bool;
  write_throws : bool;
  items : string -> option string
}.

Definition getItem (st : Storage) (k : string) : outcome (option string) :=
  if read_throws st then throws else returns (items st k).

Definition setItem (st : Storage) (k v : string) : outcome Storage :=
  if write_throws st then throws
  else returns {| read_throws := read_throws st;
                  write_throws := write_throws st;
                  items := fun k' => if String.eqb k' k then Some v
                                     else items st k' |}.

Definition SIDEBAR_COLLAPSED_KEY : string :=
  "url-summarization:sidebar-collapsed".

(** [readInitialCollapsedState] of [app-shell.tsx]; [None] is the server,
    where there is no [window]. *)
Definition readInitialCollapsedState (window : option Storage) : bool :=
  match window with
  | None => false
  | Some st =>
      match getItem st SIDEBAR_COLLAPSED_KEY with
      | returns (Some v) => String.eqb v "1"
      | returns None => false
      | throws => false
      end
  end.

(** The effect on [isCollapsed]: the state is written, a throw is ignored. *)
Definition persist_collapsed (st : Storage) (isCollapsed : bool) : Storage :=
  match setItem st SIDEBAR_COLLAPSED_KEY (if isCollapsed then "1" else "0") with
  | returns st' => st'
  | throws => st
  end.

Definition handleToggleCollapsed (v : bool) : bool := negb v.

(** A visit of the page: the state is read when the shell mounts and
    written by the effect, then each click on the toggle flips it and the
    effect writes it again. What is left is the storage and the state. *)
Fixpoint click_toggle (clicks : nat) (st : Storage) (isCollapsed : bool)
  : Storage * bool :=
  match clicks with
  | O => (st, isCollapsed)
  | S n =>
      let v := handleToggleCollapsed isCollapsed in
      click_toggle n (persist_collapsed st v) v
  end.

Definition visit (clicks : nat) (st : Storage) : Storage * bool :=
  let initial := readInitialCollapsedState (Some st) in
  click_toggle clicks (persist_collapsed st initial) initial.

Section Gate.

(** Does the URL parser take the text. *)
Variable url_format : string -> bool.

(** Does the entry of a [url] fit [UrlSummary_url_idx]. *)
Variable index_row_fits : string -> bool.

(** [.url()] appends the format check: the string is trimmed and the
    trimmed text put to the parser; taken, it is what the check hands on;
    refused, the issue is pushed and the string stays as it was. *)
Definition url_check (z : ZodString) : ZodString :=
  {| checks := checks z ++
       [fun s => let trimmed := trim s in
                 if url_format trimmed then ([], trimmed)
                 else ([invalid_format "url"], s)] |}.

(** [page.tsx]: the schema of the interactive check. *)
Definition urlSchema : ZodString :=
  refine (fun url => startsWith url "https://") "Only HTTPS URLs are allowed"
    (url_check z_string).

Inductive submit_outcome : Type :=
| setError (shown : option issue_code)
| mutate (input : value).

(** [onSubmit] of [page.tsx]: on failure the first issue is shown and
    nothing is sent; on success [{ url: validationResult.data }] is sent. *)
Definition onSubmit (url : string) : submit_outcome :=
  match safeParse urlSchema [] (VString url) with
  | failure l => setError (rejection_reason (@failure string l))
  | success data => mutate (VObject [("url", VString data)])
  end.

(** [urlSummary.ts]: the schema of the [url] field of [create]'s input. *)
Definition create_url_schema : ZodString :=
  refine (fun url => startsWith url "https://") "Only HTTPS URLs are allowed"
    (url_check z_string).

(** [z.object({ url: ..., summary: z.string().optional() })]. Every field
    is parsed; the issues of all fields are reported together. *)
Definition create_input_schema (v : value) : SafeParseResult CreateInput :=
  match v with
  | VObject fields =>
      let ru := safeParse create_url_schema ["url"] (get "url" fields) in
      let rs := optional (safeParse z_string) ["summary"]
                  (get "summary" fields) in
      match ru, rs with
      | success u, success s =>
          success {| input_url := u; input_summary := s |}
      | _, _ => failure (issues_of ru ++ issues_of rs)
      end
  | _ => failure [mkIssue (invalid_type "object") []]
  end.
(** [urlSummaryRouter.create]: the input is parsed first; the mutation runs
    on the parsed input only, and an INSERT that the database refuses comes
    back as a server error. *)
Definition urlSummaryRouter_create (e : Env) (t : table) (raw : value)
  : table * response :=
  match create_input_schema raw with
  | failure l => (t, BAD_REQUEST l)
  | success input =>
      match prisma_create index_row_fits e t
              (input_url input) (input_summary input) with
      | (t', resolved r) => (t', OK_record r)
      | (t', _) => (t', INTERNAL_SERVER_ERROR)
      end
  end.

(** [urlSummaryRouter.list]: a query; the table is left as it is. *)
Definition urlSummaryRouter_list (t : table) (res : list UrlSummary) : Prop :=
  findMany 20 t res.

(** A call of one of the two public procedures. *)
Inductive call : Type :=
| call_list
| call_create (e : Env) (raw : value).

Inductive step : table -> call -> response -> table -> Prop :=
| step_list t res :
    urlSummaryRouter_list t res -> step t call_list (OK_list res) t
| step_create t e raw :
    step t (call_create e raw)
      (snd (urlSummaryRouter_create e t raw))
      (fst (urlSummaryRouter_create e t raw)).

(** The tables that some sequence of calls builds from the empty one. *)
Inductive reachable : table -> Prop :=
| reachable_empty : reachable []
| reachable_step t c resp t' :
    reachable t -> step t c resp t' -> reachable t'.

(** Calls one after the other. *)
Inductive steps : table -> table -> Prop :=
| steps_refl t : steps t t
| steps_step t t' c resp t'' :
    steps t t' -> step t' c resp t'' -> steps t t''.

(** [create] called once per environment of [es], with the same body. *)
Fixpoint create_each (es : list Env) (t : table) (raw : value)
  : table * list response :=
  match es with
  | [] => (t, [])
  | e :: es' =>
      let (t1, resp) := urlSummaryRouter_create e t raw in
      let (t2, resps) := create_each es' t1 raw in
      (t2, resp :: resps)
  end.

(** ** The validation gate *)

(** ** White space taken off the ends *)

Lemma starts_with_bytes_app (w l : list ascii) :
  starts_with_bytes w l = true <-> exists r, l = w ++ r.
Proof.
  revert l; induction w as [|a w IH]; intros l; simpl.
  - split; [exists l; reflexivity|reflexivity].
  - destruct l as [|b l]; [split; [discriminate|intros [r H]; discriminate]|].
    rewrite andb_true_iff, Ascii.eqb_eq, IH; split.
    + intros [-> [r ->]]; exists r; reflexivity.
    + intros [r [= -> ->]]; split; [reflexivity|exists r; reflexivity].
Qed.

Lemma starts_with_bytes_both (w w' l : list ascii) :
  starts_with_bytes w l = true -> starts_with_bytes w' l = true ->
  starts_with_bytes w w' = true \/ starts_with_bytes w' w = true.
Proof.
  revert w' l; induction w as [|a w IH]; intros w' l; [left; reflexivity|].
  destruct w' as [|a' w']; [right; reflexivity|].
  destruct l as [|b l]; simpl; [discriminate|].
  rewrite !andb_true_iff, !Ascii.eqb_eq.
  intros [-> H] [-> H']; destruct (IH _ _ H H') as [E|E]; [left|right];
    (split; [reflexivity|exact E]).
Qed.

Section Codes.

Variable codes : list (list ascii).
Hypothesis codes_not_empty : forall w, In w codes -> w <> [].

Lemma code_at_head_found (l : list ascii) (k : nat) :
  code_at_head codes l = S k ->
  exists w, In w codes /\ length w = S k /\ l = w ++ skipn (S k) l.
Proof.
  unfold code_at_head.
  destruct (find (fun w => starts_with_bytes w l) codes) as [w|] eqn:E;
    [|discriminate].
  apply find_some in E as [Hin Hw]; intros Hlen.
  apply starts_with_bytes_app in Hw as [r ->].
  exists w; split; [exact Hin|]; split; [exact Hlen|].
  rewrite <- Hlen, skipn_app, skipn_all, Nat.sub_diag; reflexivity.
Qed.

Lemma code_at_head_some (w r : list ascii) :
  In w codes -> code_at_head codes (w ++ r) <> 0.
Proof.
  intros Hin; unfold code_at_head.
  destruct (find (fun c => starts_with_bytes c (w ++ r)) codes) as [c|] eqn:E.
  - apply find_some in E as [Hc _]; apply codes_not_empty in Hc.
    destruct c; [congruence|discriminate].
  - apply (find_none _ _ E) in Hin.
    rewrite (proj2 (starts_with_bytes_app w (w ++ r))) in Hin by eauto.
    discriminate.
Qed.

Lemma drop_codes_from_skip (k : nat) (l : list ascii) :
  drop_codes_from codes k l = drop_codes codes (skipn k l).
Proof.
  revert k; induction l as [|x l IH]; intros k.
  - destruct k; reflexivity.
  - destruct k as [|k]; [reflexivity|]; simpl; apply IH.
Qed.

Lemma drop_codes_eq (l : list ascii) :
  drop_codes codes l =
  match code_at_head codes l with
  | O => l
  | S k => drop_codes codes (skipn (S k) l)
  end.
Proof.
  destruct l as [|x l].
  - destruct (code_at_head codes []); reflexivity.
  - unfold drop_codes at 1; cbn [drop_codes_from].
    destruct (code_at_head codes (x :: l)); [reflexivity|].
    rewrite drop_codes_from_skip; reflexivity.
Qed.

Lemma drop_codes_fixed (l : list ascii) :
  code_at_head codes l = 0 -> drop_codes codes l = l.
Proof. intros H; rewrite drop_codes_eq, H; reflexivity. Qed.

(** What is taken off is a run of codes, and what is left begins with
    none. *)
Lemma drop_codes_decomposition (l : list ascii) :
  exists ws,
    Forall (fun w => In w codes) ws /\
    l = concat ws ++ drop_codes codes l /\
    code_at_head codes (drop_codes codes l) = 0.
Proof.
  remember (length l) as n eqn:Hn.
  revert l Hn; induction n as [n IH] using lt_wf_ind; intros l ->.
  rewrite drop_codes_eq.
  destruct (code_at_head codes l) as [|k] eqn:E.
  - exists []; simpl; auto.
  - destruct (code_at_head_found l k E) as (w & Hin & Hlen & Hl).
    destruct (IH (length (skipn (S k) l))) with (l := skipn (S k) l)
      as (ws & Hws & Hrest & Hz); [|reflexivity|].
    + rewrite Hl at 2; rewrite length_app; lia.
    + exists (w :: ws); split; [constructor; assumption|].
      split; [|exact Hz].
      cbn [concat]; rewrite <- app_assoc, <- Hrest; exact Hl.
Qed.

Lemma drop_codes_idempotent (l : list ascii) :
  drop_codes codes (drop_codes codes l) = drop_codes codes l.
Proof.
  destruct (drop_codes_decomposition l) as (_ & _ & _ & H).
  apply drop_codes_fixed; exact H.
Qed.

Lemma code_at_head_prefix (x tail : list ascii) :
  code_at_head codes (x ++ tail) = 0 -> code_at_head codes x = 0.
Proof.
  intros H; destruct (code_at_head codes x) as [|k] eqn:E; [reflexivity|].
  destruct (code_at_head_found x k E) as (w & Hin & _ & Hx).
  rewrite Hx, <- app_assoc in H.
  elim (code_at_head_some w _ Hin H).
Qed.

Lemma concat_of_codes_head (ws : list (list ascii)) :
  Forall (fun w => In w codes) ws ->
  code_at_head codes (concat ws) = 0 -> concat ws = [].
Proof.
  intros Hws H; destruct Hws as [|w ws Hw _]; [reflexivity|].
  simpl in H; elim (code_at_head_some w _ Hw H).
Qed.

Hypothesis codes_prefix_free :
  forall w w', In w codes -> In w' codes ->
    starts_with_bytes w w' = true -> w = w'.

Lemma drop_codes_code (w r : list ascii) :
  In w codes -> drop_codes codes (w ++ r) = drop_codes codes r.
Proof.
  intros Hin; rewrite drop_codes_eq.
  destruct (code_at_head codes (w ++ r)) as [|k] eqn:E;
    [elim (code_at_head_some w r Hin E)|].
  destruct (code_at_head_found _ k E) as (w' & Hin' & Hlen & Hl).
  assert (Hw : w = w').
  { destruct (starts_with_bytes_both w w' (w ++ r)) as [H|H].
    - apply starts_with_bytes_app; eauto.
    - apply starts_with_bytes_app; eauto.
    - apply codes_prefix_free; assumption.
    - symmetry; apply codes_prefix_free; assumption. }
  subst w'; rewrite <- Hlen, skipn_app, skipn_all, Nat.sub_diag; reflexivity.
Qed.

Lemma drop_codes_all (ws : list (list ascii)) :
  Forall (fun w => In w codes) ws -> drop_codes codes (concat ws) = [].
Proof.
  induction 1 as [|w ws Hw _ IH]; [reflexivity|].
  simpl; rewrite drop_codes_code by exact Hw; exact IH.
Qed.

End Codes.

Lemma white_space_not_empty (w : list ascii) : In w white_space -> w <> [].
Proof.
  intros Hw; cbv in Hw.
  repeat (destruct Hw as [<-|Hw]; [discriminate|]); destruct Hw.
Qed.

Lemma white_space_rev_not_empty (w : list ascii) :
  In w (map (@rev ascii) white_space) -> w <> [].
Proof.
  intros Hw; apply in_map_iff in Hw as (c & <- & Hc) ; intros E.
  apply (white_space_not_empty c Hc).
  rewrite <- (rev_involutive c), E; reflexivity.
Qed.

(** No code of a white space begins another one. *)
Lemma white_space_prefix_free (w w' : list ascii) :
  In w white_space -> In w' white_space ->
  starts_with_bytes w w' = true -> w = w'.
Proof.
  intros Hw Hw'; cbv in Hw.
  repeat (destruct Hw as [<-|Hw];
          [cbv in Hw';
           repeat (destruct Hw' as [<-|Hw'];
                   [intros H; try reflexivity; cbv in H; discriminate H|]);
           destruct Hw'|]).
  destruct Hw.
Qed.

Lemma string_of_list_ascii_app (l1 l2 : list ascii) :
  string_of_list_ascii (l1 ++ l2) =
  String.append (string_of_list_ascii l1) (string_of_list_ascii l2).
Proof. induction l1 as [|a l1 IH]; simpl; [|rewrite IH]; reflexivity. Qed.

Lemma length_list_ascii_of_string (s : string) :
  length (list_ascii_of_string s) = String.length s.
Proof. induction s as [|c s IH]; simpl; [|rewrite IH]; reflexivity. Qed.

Lemma prefix_of_append (p r : string) : String.prefix p (String.append p r) = true.
Proof.
  induction p as [|a p IH]; simpl; [destruct r; reflexivity|].
  destruct (ascii_dec a a) as [_|H]; [exact IH|elim H; reflexivity].
Qed.

(** [trim] takes a run of white space off each end, and what it leaves
    neither begins nor ends with white space. *)
Lemma trim_bytes (s : string) :
  exists lead tail,
    list_ascii_of_string s = lead ++ list_ascii_of_string (trim s) ++ tail /\
    (code_at_head white_space (list_ascii_of_string s) = 0 -> lead = []) /\
    code_at_head white_space (list_ascii_of_string (trim s)) = 0 /\
    code_at_head (map (@rev ascii) white_space)
      (rev (list_ascii_of_string (trim s))) = 0.
Proof.
  unfold trim, trimEnd_bytes, trimStart_bytes.
  rewrite list_ascii_of_string_of_list_ascii.
  set (l := list_ascii_of_string s).
  set (y := drop_codes white_space l).
  set (z := drop_codes (map (@rev ascii) white_space) (rev y)).
  destruct (drop_codes_decomposition white_space l) as (ws & _ & Hl & Hy).
  destruct (drop_codes_decomposition (map (@rev ascii) white_space) (rev y))
    as (ws' & _ & Hry & Hz).
  fold y in Hl, Hy; fold z in Hry, Hz.
  assert (Hyz : y = rev z ++ rev (concat ws')).
  { rewrite <- rev_app_distr, <- Hry, rev_involutive; reflexivity. }
  exists (match code_at_head white_space l with O => [] | S _ => concat ws end),
         (rev (concat ws')).
  rewrite rev_involutive; repeat split.
  - rewrite <- Hyz.
    destruct (code_at_head white_space l) eqn:E; [|exact Hl].
    unfold y; rewrite drop_codes_fixed by exact E; reflexivity.
  - intros ->; reflexivity.
  - apply (code_at_head_prefix white_space white_space_not_empty _
             (rev (concat ws'))).
    rewrite <- Hyz; exact Hy.
  - exact Hz.
Qed.

Lemma trim_idempotent (s : string) : trim (trim s) = trim s.
Proof.
  destruct (trim_bytes s) as (_ & _ & _ & _ & Hhead & Htail).
  unfold trim at 1, trimEnd_bytes, trimStart_bytes.
  rewrite (drop_codes_fixed _ _ Hhead), (drop_codes_fixed _ _ Htail).
  rewrite rev_involutive; apply string_of_list_ascii_of_string.
Qed.

Lemma trim_length (s : string) : String.length (trim s) <= String.length s.
Proof.
  destruct (trim_bytes s) as (lead & tail & H & _).
  apply (f_equal (@length ascii)) in H.
  rewrite !length_app, !length_list_ascii_of_string in H; lia.
Qed.

(** When the string does not begin with white space, what [trim] leaves is
    the beginning of the string. *)
Lemma trim_is_prefix (s : string) :
  code_at_head white_space (list_ascii_of_string s) = 0 ->
  exists tail, s = String.append (trim s) tail.
Proof.
  intros H0; destruct (trim_bytes s) as (lead & tail & H & Hlead & _).
  rewrite (Hlead H0) in H; simpl in H.
  exists (string_of_list_ascii tail).
  transitivity (string_of_list_ascii (list_ascii_of_string s));
    [symmetry; apply string_of_list_ascii_of_string|].
  rewrite H, string_of_list_ascii_app, string_of_list_ascii_of_string.
  reflexivity.
Qed.

Lemma prefix_app (p s : string) :
  String.prefix p s = true -> exists rest, s = String.append p rest.
Proof.
  revert s; induction p as [|a p IH]; intros s H.
  - exists s; reflexivity.
  - destruct s as [|b s]; simpl in H; [discriminate|].
    destruct (ascii_dec a b) as [->|]; [|discriminate].
    destruct (IH _ H) as [rest ->]; exists rest; reflexivity.
Qed.

Lemma append_assoc (a b c : string) :
  String.append (String.append a b) c = String.append a (String.append b c).
Proof. induction a as [|x a IH]; simpl; [|rewrite IH]; reflexivity. Qed.

Lemma startsWith_trim (s p : string) :
  code_at_head white_space (list_ascii_of_string s) = 0 ->
  startsWith (trim s) p = true -> startsWith s p = true.
Proof.
  unfold startsWith; intros H0 Hp.
  destruct (trim_is_prefix s H0) as [tail Hs].
  apply prefix_app in Hp as [rest Hrest].
  rewrite Hs, Hrest, append_assoc; apply prefix_of_append.
Qed.

Lemma codes_rev_concat (ws : list (list ascii)) :
  Forall (fun w => In w (map (@rev ascii) white_space)) ws ->
  exists ws', Forall (fun w => In w white_space) ws' /\
              rev (concat ws) = concat ws'.
Proof.
  induction 1 as [|w ws Hw _ (ws' & Hws' & E)]; [exists []; auto|].
  apply in_map_iff in Hw as (c & <- & Hc).
  exists (ws' ++ [c]); split.
  - apply Forall_app; auto.
  - simpl; rewrite rev_app_distr, rev_involutive, E, concat_app; simpl.
    rewrite app_nil_r; reflexivity.
Qed.

(** [trim] leaves nothing exactly of the texts that are white space
    throughout. *)
Lemma trim_empty_iff (s : string) : trim s = "" <-> all_white_space s.
Proof.
  unfold all_white_space, trim, trimEnd_bytes, trimStart_bytes.
  set (l := list_ascii_of_string s).
  set (y := drop_codes white_space l).
  destruct (drop_codes_decomposition white_space l) as (ws & Hws & Hl & Hy).
  fold y in Hl, Hy; split.
  - intros H.
    apply (f_equal list_ascii_of_string) in H.
    rewrite list_ascii_of_string_of_list_ascii in H.
    change (list_ascii_of_string "") with (@nil ascii) in H.
    apply (f_equal (@rev ascii)) in H; rewrite rev_involutive in H.
    change (rev (@nil ascii)) with (@nil ascii) in H.
    destruct (drop_codes_decomposition (map (@rev ascii) white_space) (rev y))
      as (ws' & Hws' & Hry & _).
    rewrite H, app_nil_r in Hry.
    destruct (codes_rev_concat ws' Hws') as (ws'' & Hws'' & E).
    assert (Hyc : y = concat ws'')
      by (rewrite <- E, <- Hry, rev_involutive; reflexivity).
    rewrite Hyc in Hy.
    apply (concat_of_codes_head white_space white_space_not_empty) in Hy;
      [|exact Hws''].
    exists ws; split; [exact Hws|].
    rewrite Hl, Hyc, Hy, app_nil_r; reflexivity.
  - intros (ws0 & Hws0 & E).
    assert (Hy0 : y = []).
    { unfold y; rewrite E.
      apply (drop_codes_all white_space white_space_not_empty
               white_space_prefix_free); exact Hws0. }
    rewrite Hy0; reflexivity.
Qed.

(** ** The validation gate *)

(** A string that begins with [https://] has the scheme [https]. *)
Lemma startsWith_https_scheme (s : string) :
  startsWith s "https://" = true -> scheme_of s = Some "https".
Proof.
  intros H; destruct (prefix_app _ _ H) as [rest ->]; reflexivity.
Qed.

(** The converse fails: the scheme alone does not bring the two slashes. *)
Lemma scheme_https_not_startsWith :
  scheme_of "https:example.com" = Some "https" /\
  startsWith "https:example.com" "https://" = false.
Proof. split; reflexivity. Qed.

(** Both schemas run the same two checks, the format check first; the
    scheme test sees the trimmed text when the parser took it, the string
    as it came otherwise. *)
Lemma run_checks_urlSchema (s : string) :
  run_checks (checks urlSchema) s =
  if url_format (trim s)
  then (if startsWith (trim s) "https://" then [] else [SchemeNotAllowed],
        trim s)
  else (InvalidUrl :: (if startsWith s "https://" then []
                       else [SchemeNotAllowed]), s).
Proof.
  unfold urlSchema, refine, url_check, z_string.
  cbn [checks app run_checks].
  destruct (url_format (trim s)).
  - destruct (startsWith (trim s) "https://"); reflexivity.
  - destruct (startsWith s "https://"); reflexivity.
Qed.

Lemma run_checks_create_url_schema (s : string) :
  run_checks (checks create_url_schema) s =
  if url_format (trim s)
  then (if startsWith (trim s) "https://" then [] else [SchemeNotAllowed],
        trim s)
  else (InvalidUrl :: (if startsWith s "https://" then []
                       else [SchemeNotAllowed]), s).
Proof. exact (run_checks_urlSchema s). Qed.

Lemma safeParse_accepts (z : ZodString) (p : list string) (s out : string) :
  run_checks (checks z) s = ([], out) ->
  safeParse z p (VString s) = success out.
Proof. intros H; unfold safeParse; rewrite H; reflexivity. Qed.

Lemma safeParse_rejects (z : ZodString) (p : list string) (s out : string)
  (c : issue_code) (cs : list issue_code) :
  run_checks (checks z) s = (c :: cs, out) ->
  safeParse z p (VString s) = failure (map (fun c => mkIssue c p) (c :: cs)).
Proof. intros H; unfold safeParse; rewrite H; reflexivity. Qed.

Lemma safeParse_success_inv (z : ZodString) (p : list string) (v : value)
  (d : string) :
  safeParse z p v = success d ->
  exists s, v = VString s /\ run_checks (checks z) s = ([], d).
Proof.
  destruct v; simpl; try discriminate.
  destruct (run_checks (checks z) s) as [[|c cs] out] eqn:E; [|discriminate].
  intros [= <-]; eauto.
Qed.

(** What the gate lets through is the trimmed text of a string, taken by
    the parser and beginning with [https://]. *)
Lemma create_url_schema_success_inv (p : list string) (v : value) (d : string) :
  safeParse create_url_schema p v = success d ->
  exists s, v = VString s /\ d = trim s /\
            url_format d = true /\ startsWith d "https://" = true.
Proof.
  intros H; apply safeParse_success_inv in H as (s & -> & H).
  exists s; split; [reflexivity|].
  rewrite run_checks_create_url_schema in H.
  destruct (url_format (trim s)) eqn:Hu; [|discriminate].
  destruct (startsWith (trim s) "https://") eqn:Hs; [|discriminate].
  injection H as <-; rewrite Hu; auto.
Qed.

Lemma create_url_schema_accepts (p : list string) (s : string) :
  url_format (trim s) = true -> startsWith (trim s) "https://" = true ->
  safeParse create_url_schema p (VString s) = success (trim s).
Proof.
  intros Hu Hs; apply safeParse_accepts.
  rewrite run_checks_create_url_schema, Hu, Hs; reflexivity.
Qed.

(** The parsed input of [create] carries a checked [url]. *)
Lemma create_input_schema_success_inv (raw : value) (input : CreateInput) :
  create_input_schema raw = success input ->
  url_format (input_url input) = true /\
  startsWith (input_url input) "https://" = true.
Proof.
  unfold create_input_schema; destruct raw; try discriminate.
  destruct (safeParse create_url_schema ["url"] (get "url" fields)) eqn:Eu.
  - apply create_url_schema_success_inv in Eu as (s & _ & _ & Hu & Hs).
    destruct (optional _ _ _); [|discriminate].
    intros [= <-]; simpl; auto.
  - destruct (optional _ _ _); discriminate.
Qed.

Lemma create_input_schema_request (u : string) (s : option string) :
  url_format (trim u) = true -> startsWith (trim u) "https://" = true ->
  create_input_schema (create_request u s) =
  success {| input_url := trim u; input_summary := s |}.
Proof.
  intros Hu Hs; unfold create_input_schema, create_request.
  cbn [get String.eqb Ascii.eqb Bool.eqb].
  rewrite (create_url_schema_accepts _ _ Hu Hs).
  destruct s; reflexivity.
Qed.

(** A request whose [url] is a string that fails a check is refused, the
    issues of [url] first. *)
Lemma create_input_schema_rejects (u : string) (s : option string)
  (c : issue_code) (cs : list issue_code) (out : string) :
  run_checks (checks create_url_schema) u = (c :: cs, out) ->
  create_input_schema (create_request u s) =
  failure (map (fun c => mkIssue c ["url"]) (c :: cs)).
Proof.
  intros H; unfold create_input_schema, create_request.
  cbn [get String.eqb Ascii.eqb Bool.eqb].
  rewrite (safeParse_rejects _ _ _ _ _ _ H).
  destruct s; simpl; rewrite ?app_nil_r; reflexivity.
Qed.

Lemma has_id_false (i : string) (t : table) :
  has_id i t = false <-> ~ In i (map id t).
Proof.
  unfold has_id; induction t as [|r t IH]; simpl.
  - tauto.
  - rewrite orb_false_iff, IH, String.eqb_neq; tauto.
Qed.

(** What [create] does with a body, case by case. *)
Lemma create_resp_cases (e : Env) (t : table) (raw : value) :
  (exists l, l <> [] /\ create_input_schema raw = failure l /\
             urlSummaryRouter_create e t raw = (t, BAD_REQUEST l)) \/
  (exists input, create_input_schema raw = success input /\
     (has_nul (input_url input) = true \/
      summary_has_nul (input_summary input) = true \/
      has_id (cuid e) t = true \/
      index_row_fits (input_url input) = false) /\
     urlSummaryRouter_create e t raw = (t, INTERNAL_SERVER_ERROR)) \/
  (exists input, create_input_schema raw = success input /\
     has_nul (input_url input) = false /\
     summary_has_nul (input_summary input) = false /\
     has_id (cuid e) t = false /\
     index_row_fits (input_url input) = true /\
     urlSummaryRouter_create e t raw =
     (t ++ [mkUrlSummary (cuid e) (input_url input) (input_summary input)
              (now e) (now e)],
      OK_record (mkUrlSummary (cuid e) (input_url input) (input_summary input)
                   (now e) (now e)))).
Proof.
  unfold urlSummaryRouter_create, prisma_create.
  destruct (create_input_schema raw) as [input|l] eqn:E.
  - right.
    destruct (has_nul (input_url input)) eqn:Hn;
      [left; exists input; auto|].
    destruct (summary_has_nul (input_summary input)) eqn:Hsn;
      [left; exists input; auto|].
    destruct (has_id (cuid e) t) eqn:Hid; [left; exists input; auto 6|].
    destruct (index_row_fits (input_url input)) eqn:Hfit;
      [right; exists input; auto 8|left; exists input; auto 6].
  - left; exists l; repeat split; try reflexivity.
    intros ->; revert E; unfold create_input_schema.
    destruct raw; try discriminate.
    destruct (safeParse create_url_schema ["url"] (get "url" fields)) eqn:Eu.
    + destruct (optional (safeParse z_string) ["summary"]
                  (get "summary" fields)) eqn:Es; [discriminate|].
      simpl; intros [= ->]; revert Es; unfold optional, safeParse.
      destruct (get "summary" fields); simpl; discriminate.
    + destruct (optional _ _ _); simpl; intros [= H];
        apply app_eq_nil in H as [-> _];
        revert Eu; unfold safeParse;
        destruct (get "url" fields); try discriminate;
        destruct (run_checks _ _) as [[|c cs] out]; discriminate.
Qed.

(** With a checked input that the database takes, [create] appends exactly
    the row it answers with. *)
Lemma create_request_ok (e : Env) (t : table) (u : string) (s : option string) :
  url_format (trim u) = true -> startsWith (trim u) "https://" = true ->
  has_nul (trim u) = false -> summary_has_nul s = false ->
  has_id (cuid e) t = false -> index_row_fits (trim u) = true ->
  urlSummaryRouter_create e t (create_request u s) =
  (t ++ [mkUrlSummary (cuid e) (trim u) s (now e) (now e)],
   OK_record (mkUrlSummary (cuid e) (trim u) s (now e) (now e))).
Proof.
  intros Hu Hs Hn Hsn Hid Hfit; unfold urlSummaryRouter_create, prisma_create.
  rewrite (create_input_schema_request _ _ Hu Hs); simpl.
  rewrite Hn, Hsn, Hid, Hfit; reflexivity.
Qed.

(** Whatever the request, [create] leaves the table alone or appends one
    row whose [url] passed both checks and whose [id] was unused. *)
Lemma create_table_cases (e : Env) (t : table) (raw : value) :
  fst (urlSummaryRouter_create e t raw) = t \/
  exists r, fst (urlSummaryRouter_create e t raw) = t ++ [r] /\
            snd (urlSummaryRouter_create e t raw) = OK_record r /\
            url_format (url r) = true /\
            startsWith (url r) "https://" = true /\
            id r = cuid e /\ ~ In (id r) (map id t).
Proof.
  destruct (create_resp_cases e t raw)
    as [(l & _ & _ & ->)|[(i & _ & _ & ->)|(i & Hi & _ & _ & Hid & _ & ->)]];
    [left; reflexivity|left; reflexivity|right].
  apply create_input_schema_success_inv in Hi as [Hu Hs].
  eexists; simpl; repeat split; auto.
  apply has_id_false; exact Hid.
Qed.

(** C2 (amended). The gate trims the string and runs the format check on
    the trimmed text, then the scheme check, both on every string. A string
    whose trimmed text does not pass the URL format check is refused with
    [InvalidUrl] as the first reason; one whose trimmed text passes it but
    has a scheme that is not exactly [https] (or does not begin with
    [https://]) is refused with [SchemeNotAllowed] alone. The two reasons
    differ. For a string that fails the format check [SchemeNotAllowed] is
    never the first reason; it is reported too, after [InvalidUrl], exactly
    when the string does not begin with [https://]. *)
Theorem gate_checks_in_order (s : string) :
  let r := safeParse create_url_schema ["url"] (VString s) in
  let seen := if url_format (trim s) then trim s else s in
  map code (issues_of r) =
    (if url_format (trim s) then [] else [InvalidUrl]) ++
    (if startsWith seen "https://" then [] else [SchemeNotAllowed]) /\
  (url_format (trim s) = false -> rejection_reason r = Some InvalidUrl) /\
  (url_format (trim s) = true -> scheme_of (trim s) <> Some "https" ->
   map code (issues_of r) = [SchemeNotAllowed]) /\
  (url_format (trim s) = true -> startsWith (trim s) "https://" = false ->
   map code (issues_of r) = [SchemeNotAllowed]) /\
  InvalidUrl <> SchemeNotAllowed /\
  (url_format (trim s) = false ->
   rejection_reason r <> Some SchemeNotAllowed) /\
  (url_format (trim s) = false ->
   (In SchemeNotAllowed (map code (issues_of r)) <->
    startsWith s "https://" = false)).
Proof.
  cbv zeta.
  assert (Hall : map code
            (issues_of (safeParse create_url_schema ["url"] (VString s))) =
            (if url_format (trim s) then [] else [InvalidUrl]) ++
            (if startsWith (if url_format (trim s) then trim s else s)
                  "https://"
             then [] else [SchemeNotAllowed])).
  { unfold safeParse; rewrite run_checks_create_url_schema.
    destruct (url_format (trim s)).
    - destruct (startsWith (trim s) "https://"); reflexivity.
    - destruct (startsWith s "https://"); reflexivity. }
  assert (Hsch : url_format (trim s) = true ->
            startsWith (trim s) "https://" = false ->
            map code
              (issues_of (safeParse create_url_schema ["url"] (VString s)))
            = [SchemeNotAllowed]).
  { intros Hu Hs; rewrite Hall, Hu, Hs; reflexivity. }
  assert (Hfmt : url_format (trim s) = false ->
            rejection_reason (safeParse create_url_schema ["url"] (VString s))
            = Some InvalidUrl).
  { intros Hu; unfold safeParse, rejection_reason.
    rewrite run_checks_create_url_schema, Hu; reflexivity. }
  split; [exact Hall|]; split; [exact Hfmt|]; split; [|split; [exact Hsch|]].
  - intros Hu Hne; apply Hsch; [exact Hu|].
    destruct (startsWith (trim s) "https://") eqn:Hs; [|reflexivity].
    elim Hne; apply startsWith_https_scheme; exact Hs.
  - split; [discriminate|]; split.
    + intros Hu; rewrite (Hfmt Hu); discriminate.
    + intros Hu; rewrite Hall, Hu.
      destruct (startsWith s "https://"); simpl; split;
        try discriminate; auto.
      intros [H|[]]; discriminate.
Qed.


(** C4. The check run by [onSubmit] and the check on the [url] field of
    [create] are the same predicate: on every string they agree on
    acceptance, on the accepted value and on the issues found, hence on the
    reason reported; what [onSubmit] sends, the trimmed text, is accepted
    by [create]'s input schema as it is, and what it refuses is refused
    there with the reason it shows. *)
Theorem client_server_same_predicate (s : string) :
  let client := safeParse urlSchema [] (VString s) in
  let server := safeParse create_url_schema ["url"] (VString s) in
  is_success client = is_success server /\
  (forall d, client = success d <-> server = success d) /\
  map code (issues_of client) = map code (issues_of server) /\
  rejection_reason client = rejection_reason server /\
  match onSubmit s with
  | mutate raw =>
      raw = VObject [("url", VString (trim s))] /\
      create_input_schema raw =
      success {| input_url := trim s; input_summary := None |}
  | setError shown =>
      shown <> None /\
      rejection_reason (create_input_schema (create_request s None)) = shown
  end.
Proof.
  cbv zeta; unfold onSubmit, safeParse, rejection_reason.
  pose proof (create_input_schema_request (trim s) None) as Hok.
  rewrite trim_idempotent in Hok.
  pose proof (create_input_schema_rejects s None) as Hno.
  rewrite run_checks_create_url_schema in Hno.
  rewrite run_checks_urlSchema, run_checks_create_url_schema.
  destruct (url_format (trim s)).
  - destruct (startsWith (trim s) "https://");
      cbn -[create_input_schema create_request trim];
      repeat split; try discriminate; auto;
      try (intros [= <-]; reflexivity);
      try (erewrite Hno by reflexivity; reflexivity).
  - destruct (startsWith s "https://");
      cbn -[create_input_schema create_request trim];
      repeat split; try discriminate; auto;
      try (intros [= <-]; reflexivity);
      try (erewrite Hno by reflexivity; reflexivity).
Qed.

(** ** The table under the two procedures *)

Lemma step_table_cases (t : table) (c : call) (resp : response) (t' : table) :
  step t c resp t' ->
  t' = t \/
  exists r, t' = t ++ [r] /\ url_format (url r) = true /\
            startsWith (url r) "https://" = true /\ ~ In (id r) (map id t).
Proof.
  intros [t0 res _|t0 e raw]; [left; reflexivity|].
  destruct (create_table_cases e t0 raw) as [H|(r & H & _ & Hu & Hs & _ & Hid)].
  - left; exact H.
  - right; exists r; auto.
Qed.

(** The primary key holds in every reachable table. *)
Lemma reachable_ids_unique (t : table) : reachable t -> NoDup (map id t).
Proof.
  induction 1 as [|t c resp t' _ IH Hstep]; [constructor|].
  destruct (step_table_cases _ _ _ _ Hstep) as [->|(r & -> & _ & _ & Hid)].
  - exact IH.
  - rewrite map_app; simpl.
    eapply Permutation_NoDup; [apply Permutation_cons_append|].
    constructor; assumption.
Qed.

Lemma findMany_incl (n : nat) (t : table) (res : list UrlSummary) :
  findMany n t res -> incl res t.
Proof.
  intros (l & Hp & _ & ->) x Hx.
  eapply Permutation_in; [exact Hp|].
  rewrite <- (firstn_skipn n l); apply in_or_app; left; exact Hx.
Qed.

(** C1. In every table that a sequence of [create] and [list] calls builds
    from the empty one, whatever the request bodies, each row's [url] passes
    the URL format check, begins with [https://] and has the scheme
    [https]; so does every record that [list] then returns. *)
Theorem reachable_urls_valid_https (t : table) :
  reachable t ->
  let valid_https (r : UrlSummary) :=
    url_format (url r) = true /\ startsWith (url r) "https://" = true /\
    scheme_of (url r) = Some "https" in
  Forall valid_https t /\
  forall res, urlSummaryRouter_list t res -> Forall valid_https res.
Proof.
  intros Hr; cbv zeta.
  assert (Ht : Forall (fun r => url_format (url r) = true /\
                         startsWith (url r) "https://" = true /\
                         scheme_of (url r) = Some "https") t).
  { induction Hr as [|t c resp t' _ IH Hstep]; [constructor|].
    destruct (step_table_cases _ _ _ _ Hstep) as [->|(r & -> & Hu & Hs & _)].
    - exact IH.
    - apply Forall_app; split; [exact IH|].
      constructor; [|constructor].
      auto using startsWith_https_scheme. }
  split; [exact Ht|].
  intros res Hres; rewrite Forall_forall in *.
  intros r Hin; apply Ht; eapply findMany_incl; eassumption.
Qed.

(** ** Listing *)

Lemma insert_desc_perm (r : UrlSummary) (l : list UrlSummary) :
  Permutation (insert_desc r l) (r :: l).
Proof.
  induction l as [|x l IH]; simpl; [reflexivity|].
  destruct (createdAt x <? createdAt r)%Z; [reflexivity|].
  rewrite IH; apply perm_swap.
Qed.

Lemma insert_desc_sorted (r : UrlSummary) (l : list UrlSummary) :
  newest_first l -> newest_first (insert_desc r l).
Proof.
  unfold newest_first; induction 1 as [|x l Hs IH Hx]; simpl.
  - repeat constructor.
  - destruct (createdAt x <? createdAt r)%Z eqn:E.
    + apply Z.ltb_lt in E; constructor; [constructor; assumption|].
      constructor; [lia|].
      eapply Forall_impl; [|exact Hx]; simpl; intros; lia.
    + apply Z.ltb_ge in E; constructor; [exact IH|].
      eapply Permutation_Forall; [symmetry; apply insert_desc_perm|].
      constructor; assumption.
Qed.

Lemma order_desc_perm (t : table) : Permutation (order_desc t) t.
Proof.
  induction t as [|r t IH]; simpl; [reflexivity|].
  rewrite insert_desc_perm; constructor; exact IH.
Qed.

Lemma order_desc_sorted (t : table) : newest_first (order_desc t).
Proof.
  induction t as [|r t IH]; simpl; [constructor|].
  apply insert_desc_sorted; exact IH.
Qed.

(** The query always has an answer, and [findMany_run] computes one. *)
Lemma findMany_run_answer (n : nat) (t : table) : findMany n t (findMany_run n t).
Proof.
  exists (order_desc t); split; [apply order_desc_perm|].
  split; [apply order_desc_sorted|reflexivity].
Qed.

Lemma newest_first_app (l1 l2 : list UrlSummary) :
  newest_first (l1 ++ l2) ->
  newest_first l1 /\
  forall a b, In a l1 -> In b l2 -> (createdAt b <= createdAt a)%Z.
Proof.
  unfold newest_first; induction l1 as [|x l1 IH]; simpl; intros H.
  - split; [constructor|intros a b []].
  - apply StronglySorted_inv in H as [Hs Hx].
    destruct (IH Hs) as [H1 H2]; split.
    + constructor; [exact H1|].
      apply Forall_app in Hx; tauto.
    + intros a b [<-|Ha] Hb; [|auto].
      rewrite Forall_forall in Hx; apply Hx, in_or_app; right; exact Hb.
Qed.

(** Two orderings of the same elements by an order that is antisymmetric on
    them are the same list. *)
Lemma sorted_perm_unique {A : Type} (R : A -> A -> Prop) (l l' : list A) :
  (forall a b, In a l -> In b l -> R a b -> R b a -> a = b) ->
  StronglySorted R l -> StronglySorted R l' -> Permutation l l' -> l = l'.
Proof.
  revert l'; induction l as [|a l IH]; intros l' Hanti Hs Hs' Hp.
  - apply Permutation_nil in Hp; congruence.
  - destruct l' as [|b l'];
      [symmetry in Hp; apply Permutation_nil in Hp; discriminate|].
    apply StronglySorted_inv in Hs as [Hs Ha].
    apply StronglySorted_inv in Hs' as [Hs' Hb].
    rewrite Forall_forall in Ha, Hb.
    assert (Hab : a = b).
    { assert (Hain : In a (b :: l'))
        by (eapply Permutation_in; [exact Hp|left; reflexivity]).
      assert (Hbin : In b (a :: l))
        by (eapply Permutation_in; [symmetry; exact Hp|left; reflexivity]).
      destruct Hain as [->|Hain]; [reflexivity|].
      destruct Hbin as [->|Hbin]; [reflexivity|].
      apply Hanti; [left; reflexivity|right; exact Hbin|auto|auto]. }
    subst b; f_equal; apply IH; auto.
    + intros x y Hx Hy; apply Hanti; right; assumption.
    + eapply Permutation_cons_inv; exact Hp.
Qed.

Lemma newest_first_keys (l : list UrlSummary) :
  newest_first l ->
  StronglySorted (fun x y => (y <= x)%Z) (map createdAt l).
Proof.
  induction 1 as [|x l _ IH Hx]; simpl; constructor; [exact IH|].
  rewrite Forall_forall in *; intros k Hk.
  apply in_map_iff in Hk as (y & <- & Hy); auto.
Qed.

(** The answers of one query to one table agree on the sequence of
    [createdAt] values; they are equal when no two rows tie. *)
Lemma findMany_keys (n : nat) (t : table) (r1 r2 : list UrlSummary) :
  findMany n t r1 -> findMany n t r2 -> map createdAt r1 = map createdAt r2.
Proof.
  intros (l1 & Hp1 & Hs1 & ->) (l2 & Hp2 & Hs2 & ->).
  rewrite <- !firstn_map; f_equal.
  apply (sorted_perm_unique (fun x y => (y <= x)%Z));
    auto using newest_first_keys.
  - intros; lia.
  - apply Permutation_map; rewrite Hp1, Hp2; reflexivity.
Qed.

Lemma findMany_unique (n : nat) (t : table) (r1 r2 : list UrlSummary) :
  NoDup (map createdAt t) -> findMany n t r1 -> findMany n t r2 -> r1 = r2.
Proof.
  intros Hnd (l1 & Hp1 & Hs1 & ->) (l2 & Hp2 & Hs2 & ->); f_equal.
  apply (sorted_perm_unique (fun a b => (createdAt b <= createdAt a)%Z));
    auto; [|rewrite Hp1, Hp2; reflexivity].
  assert (Hnd1 : NoDup (map createdAt l1))
    by (eapply Permutation_NoDup; [apply Permutation_map; symmetry; exact Hp1|exact Hnd]).
  intros a b Ha Hb Hab Hba.
  assert (E : createdAt a = createdAt b) by lia.
  clear - Hnd1 Ha Hb E.
  induction l1 as [|x l1 IH]; [destruct Ha|].
  simpl in Hnd1; apply NoDup_cons_iff in Hnd1 as [Hx Hnd1].
  destruct Ha as [->|Ha], Hb as [->|Hb]; auto.
  - elim Hx; rewrite E; apply in_map; exact Hb.
  - elim Hx; rewrite <- E; apply in_map; exact Ha.
Qed.

(** The answer depends on the rows of the table, not on how they lie. *)
Lemma findMany_perm (n : nat) (t t' : table) (res : list UrlSummary) :
  Permutation t t' -> findMany n t res -> findMany n t' res.
Proof.
  intros Hp (l & Hl & Hs & ->); exists l; split; [|auto].
  rewrite Hl; exact Hp.
Qed.

Lemma step_list_inv (t : table) (resp : response) (t' : table) :
  step t call_list resp t' ->
  t' = t /\ exists res, resp = OK_list res /\ urlSummaryRouter_list t res.
Proof. inversion 1; subst; eauto. Qed.

Lemma step_create_inv (t : table) (e : Env) (raw : value) (resp : response)
  (t' : table) :
  step t (call_create e raw) resp t' ->
  resp = snd (urlSummaryRouter_create e t raw) /\
  t' = fst (urlSummaryRouter_create e t raw).
Proof. inversion 1; subst; auto. Qed.

(** C5. [list] always answers; whatever the table, an answer is ordered by
    [createdAt] descending, holds at most 20 records (exactly 20 when the
    table has more), and is made of the most recent ones: the rows left out
    are no more recent than any row returned. *)
Theorem list_newest_first_at_most_20 (t : table) :
  urlSummaryRouter_list t (findMany_run 20 t) /\
  forall res, urlSummaryRouter_list t res ->
    newest_first res /\
    length res <= 20 /\
    length res = Nat.min 20 (length t) /\
    exists rest,
      Permutation t (res ++ rest) /\
      forall r r', In r res -> In r' rest ->
        (createdAt r' <= createdAt r)%Z.
Proof.
  split; [apply findMany_run_answer|].
  intros res (l & Hp & Hs & ->).
  rewrite <- (firstn_skipn 20 l) in Hs.
  apply newest_first_app in Hs as [Hs1 Hs2].
  split; [exact Hs1|].
  split; [apply firstn_le_length|].
  split; [rewrite length_firstn, (Permutation_length Hp); reflexivity|].
  exists (skipn 20 l); split; [|exact Hs2].
  rewrite firstn_skipn; symmetry; exact Hp.
Qed.

(** X19. [list] leaves the table as it is, so two calls in succession
    query the same rows; their answers carry the same sequence of
    [createdAt] values, and they are the same sequence of records whenever
    no two rows of the table share a [createdAt] value. *)
Theorem list_twice_same_without_ties (t t1 t2 : table) (resp1 resp2 : response) :
  step t call_list resp1 t1 -> step t1 call_list resp2 t2 ->
  t2 = t /\
  exists r1 r2,
    resp1 = OK_list r1 /\ resp2 = OK_list r2 /\
    map createdAt r1 = map createdAt r2 /\
    (NoDup (map createdAt t) -> r1 = r2).
Proof.
  intros H1 H2.
  apply step_list_inv in H1 as (-> & r1 & -> & L1).
  apply step_list_inv in H2 as (-> & r2 & -> & L2).
  split; [reflexivity|]; exists r1, r2; repeat split.
  - eapply findMany_keys; eassumption.
  - intros Hnd; eapply findMany_unique; eassumption.
Qed.

(** ** Creating, then listing *)

Lemma create_ok_inv (e : Env) (t : table) (raw : value) (r : UrlSummary) :
  snd (urlSummaryRouter_create e t raw) = OK_record r ->
  fst (urlSummaryRouter_create e t raw) = t ++ [r] /\
  id r = cuid e /\ createdAt r = now e /\ updatedAt r = now e.
Proof.
  destruct (create_resp_cases e t raw)
    as [(l & _ & _ & ->)|[(i & _ & _ & ->)|(i & _ & _ & _ & _ & _ & ->)]];
    simpl; try discriminate.
  intros [= <-]; auto.
Qed.

Lemma filter_length_perm {A : Type} (f : A -> bool) (l l' : list A) :
  Permutation l l' -> length (filter f l) = length (filter f l').
Proof.
  induction 1 as [|x l l' _ IH|x y l|l l' l'' _ IH1 _ IH2]; simpl.
  - reflexivity.
  - destruct (f x); simpl; congruence.
  - destruct (f x), (f y); reflexivity.
  - congruence.
Qed.

Lemma filter_all {A : Type} (f : A -> bool) (l : list A) :
  (forall x, In x l -> f x = true) -> filter f l = l.
Proof.
  induction l as [|x l IH]; simpl; intros H; [reflexivity|].
  rewrite (H x) by auto; f_equal; auto.
Qed.

(** A row with no row at least as recent comes out first. *)
Lemma findMany_newest_is_head (n : nat) (t : table) (r : UrlSummary)
  (res : list UrlSummary) :
  Forall (fun x => (createdAt x < createdAt r)%Z) t ->
  findMany (S n) (t ++ [r]) res -> hd_error res = Some r.
Proof.
  intros Hlt (l & Hp & Hs & ->).
  destruct l as [|a l];
    [destruct t; apply Permutation_nil in Hp; discriminate|].
  simpl; f_equal.
  assert (Ha : In a (t ++ [r]))
    by (eapply Permutation_in; [exact Hp|left; reflexivity]).
  assert (Hr : In r (a :: l)).
  { eapply Permutation_in; [symmetry; exact Hp|].
    apply in_or_app; right; left; reflexivity. }
  apply in_app_or in Ha as [Ha|[Ha|[]]]; [|symmetry; exact Ha].
  rewrite Forall_forall in Hlt; specialize (Hlt _ Ha).
  destruct Hr as [Hr|Hr]; [exact Hr|].
  apply StronglySorted_inv in Hs as [_ Hs].
  rewrite Forall_forall in Hs; specialize (Hs _ Hr); simpl in Hs; lia.
Qed.

(** A row with fewer than [n] rows at least as recent is in the answer. *)
Lemma findMany_recent_is_in (n : nat) (t : table) (r : UrlSummary)
  (res : list UrlSummary) :
  length (filter (fun x => (createdAt r <=? createdAt x)%Z) t) < n ->
  findMany n (t ++ [r]) res -> In r res.
Proof.
  intros Hlen (l & Hp & Hs & ->).
  assert (Hr : In r l).
  { eapply Permutation_in; [symmetry; exact Hp|].
    apply in_or_app; right; left; reflexivity. }
  apply in_split in Hr as (l1 & l2 & ->).
  assert (Hp' : Permutation (l1 ++ l2) t).
  { apply (Permutation_app_inv l1 l2 t [] r) in Hp.
    rewrite app_nil_r in Hp; exact Hp. }
  apply newest_first_app in Hs as [_ Hs].
  assert (Hl1 : length l1 < n).
  { rewrite <- (filter_length_perm _ _ _ Hp'), filter_app, length_app in Hlen.
    rewrite filter_all in Hlen; [lia|].
    intros x Hx; apply Z.leb_le, Hs; [exact Hx|left; reflexivity]. }
  rewrite firstn_app, firstn_all2 by lia.
  apply in_or_app; right.
  destruct (n - length l1) eqn:E; [lia|left; reflexivity].
Qed.

(** C6 (amended). After a successful [create], a [list] with no call in
    between returns the new record first when every row already stored is
    strictly older than it, and returns it somewhere when fewer than 20
    stored rows are at least as recent as it. *)
Theorem create_then_list_new_record (t t1 t2 : table) (e : Env) (raw : value)
  (r : UrlSummary) (resp : response) :
  step t (call_create e raw) (OK_record r) t1 ->
  step t1 call_list resp t2 ->
  exists res,
    resp = OK_list res /\
    (Forall (fun x => (createdAt x < createdAt r)%Z) t ->
     hd_error res = Some r) /\
    (length (filter (fun x => (createdAt r <=? createdAt x)%Z) t) < 20 ->
     In r res).
Proof.
  intros Hc Hl.
  apply step_create_inv in Hc as [Hresp ->].
  symmetry in Hresp; apply create_ok_inv in Hresp as [Ht _].
  rewrite Ht in Hl.
  apply step_list_inv in Hl as (_ & res & -> & Hres).
  exists res; split; [reflexivity|]; split; intros H.
  - eapply findMany_newest_is_head; eassumption.
  - eapply findMany_recent_is_in; eassumption.
Qed.


(** ** Summaries and repeated URLs *)

(** C8 (amended). With a URL that passes the gate and a row that the
    database takes (no NUL byte in the [url], an unused identifier, an
    index entry that fits), [create] without a summary succeeds and its
    record has [summary] null; with a summary string free of NUL bytes it
    succeeds and its record's [summary] is that string; with a summary that
    holds a NUL byte the INSERT is refused and nothing is stored. *)
Theorem create_summary_null_or_given (e : Env) (t : table) (u : string) :
  url_format (trim u) = true -> startsWith (trim u) "https://" = true ->
  has_nul (trim u) = false -> has_id (cuid e) t = false ->
  index_row_fits (trim u) = true ->
  (exists r,
     urlSummaryRouter_create e t (create_request u None)
     = (t ++ [r], OK_record r) /\ url r = trim u /\ summary r = None) /\
  (forall text, has_nul text = false -> exists r,
     urlSummaryRouter_create e t (create_request u (Some text))
     = (t ++ [r], OK_record r) /\ url r = trim u /\ summary r = Some text) /\
  (forall text, has_nul text = true ->
     urlSummaryRouter_create e t (create_request u (Some text))
     = (t, INTERNAL_SERVER_ERROR)).
Proof.
  intros Hu Hs Hn Hid Hfit; split; [|split; intros text Ht].
  - eexists; split; [apply create_request_ok; auto|split; reflexivity].
  - eexists; split; [apply create_request_ok; auto|split; reflexivity].
  - unfold urlSummaryRouter_create, prisma_create.
    rewrite (create_input_schema_request _ _ Hu Hs); simpl.
    rewrite Hn, Ht; reflexivity.
Qed.

(** C9 (amended). The [summary] field has no check: every string, the
    empty one included, passes validation as it is. A string free of NUL
    bytes is stored and returned verbatim (given a URL that passes the gate
    and a row that the database takes); an empty summary is stored as the
    empty string, which is not the null of an absent summary. A string that
    holds a NUL byte passes validation too, but the INSERT is refused and
    nothing is stored. *)
Theorem summary_stored_verbatim (e : Env) (t : table) (u text : string) :
  url_format (trim u) = true -> startsWith (trim u) "https://" = true ->
  has_nul (trim u) = false -> has_id (cuid e) t = false ->
  index_row_fits (trim u) = true ->
  optional (safeParse z_string) ["summary"] (VString text)
  = success (Some text) /\
  (has_nul text = false ->
   exists r,
     urlSummaryRouter_create e t (create_request u (Some text))
     = (t ++ [r], OK_record r) /\ summary r = Some text) /\
  (has_nul text = true ->
   urlSummaryRouter_create e t (create_request u (Some text))
   = (t, INTERNAL_SERVER_ERROR)) /\
  (exists r0 r1,
     urlSummaryRouter_create e t (create_request u (Some ""))
     = (t ++ [r0], OK_record r0) /\
     urlSummaryRouter_create e t (create_request u None)
     = (t ++ [r1], OK_record r1) /\
     summary r0 = Some "" /\ summary r1 = None /\ summary r0 <> summary r1).
Proof.
  intros Hu Hs Hn Hid Hfit; split; [reflexivity|].
  split; [|split]; [intros Ht|intros Ht|].
  - eexists; split; [apply create_request_ok; auto|reflexivity].
  - unfold urlSummaryRouter_create, prisma_create.
    rewrite (create_input_schema_request _ _ Hu Hs); simpl.
    rewrite Hn, Ht; reflexivity.
  - do 2 eexists; split; [apply create_request_ok; auto|].
    split; [apply create_request_ok; auto|].
    simpl; repeat split; discriminate.
Qed.

Lemma has_id_app (i : string) (t : table) (r : UrlSummary) :
  has_id i t = false -> id r <> i -> has_id i (t ++ [r]) = false.
Proof.
  unfold has_id; intros Ht Hr; rewrite existsb_app, Ht; simpl.
  rewrite orb_false_r; apply String.eqb_neq; exact Hr.
Qed.

Lemma NoDup_ids_snoc (t : table) (r : UrlSummary) :
  NoDup (map id t) -> has_id (id r) t = false -> NoDup (map id (t ++ [r])).
Proof.
  intros Hnd Hid; rewrite map_app; simpl.
  eapply Permutation_NoDup; [apply Permutation_cons_append|].
  constructor; [apply has_id_false; exact Hid|exact Hnd].
Qed.

(** Calls of [create] with one good body, whatever identifiers come with
    them: a call whose identifier is taken is refused and changes nothing,
    every other call appends its row. *)
Lemma create_each_cases (es : list Env) (t : table) (u : string)
  (sm : option string) :
  url_format (trim u) = true -> startsWith (trim u) "https://" = true ->
  has_nul (trim u) = false -> summary_has_nul sm = false ->
  index_row_fits (trim u) = true ->
  NoDup (map id t) ->
  exists rs,
    fst (create_each es t (create_request u sm)) = t ++ rs /\
    Forall (fun r => url r = trim u) rs /\
    NoDup (map id (t ++ rs)) /\
    Forall (fun resp => resp = INTERNAL_SERVER_ERROR \/
                        exists r, resp = OK_record r /\ In r rs)
      (snd (create_each es t (create_request u sm))) /\
    (NoDup (map cuid es) ->
     (forall e, In e es -> has_id (cuid e) t = false) ->
     snd (create_each es t (create_request u sm)) = map OK_record rs /\
     length rs = length es).
Proof.
  intros Hu Hs Hn Hsn Hfit; revert t.
  induction es as [|e es IH]; intros t Hnd.
  - exists []; simpl; rewrite app_nil_r; repeat split; auto.
  - cbn [create_each].
    destruct (has_id (cuid e) t) eqn:Hid.
    + assert (E : urlSummaryRouter_create e t (create_request u sm)
                  = (t, INTERNAL_SERVER_ERROR)).
      { unfold urlSummaryRouter_create, prisma_create.
        rewrite (create_input_schema_request _ _ Hu Hs); simpl.
        rewrite Hn, Hsn, Hid; reflexivity. }
      rewrite E; destruct (IH t Hnd) as (rs & Ht & Hurl & Hids & Hresp & _).
      destruct (create_each es t (create_request u sm)) as [t2 resps].
      simpl in *; exists rs.
      split; [exact Ht|]; split; [exact Hurl|]; split; [exact Hids|].
      split; [constructor; [left; reflexivity|exact Hresp]|].
      intros _ Hfresh; rewrite (Hfresh e (or_introl eq_refl)) in Hid.
      discriminate.
    + rewrite (create_request_ok e t u sm Hu Hs Hn Hsn Hid Hfit).
      set (r := mkUrlSummary (cuid e) (trim u) sm (now e) (now e)).
      destruct (IH (t ++ [r])) as (rs & Ht & Hurl & Hids & Hresp & Hall);
        [apply NoDup_ids_snoc; assumption|].
      destruct (create_each es (t ++ [r]) (create_request u sm))
        as [t2 resps].
      simpl in *; exists (r :: rs).
      rewrite <- app_assoc in Ht, Hids; simpl in Ht, Hids.
      split; [exact Ht|]; split; [constructor; [reflexivity|exact Hurl]|].
      split; [exact Hids|]; split.
      * constructor; [right; exists r; split; [reflexivity|left; reflexivity]|].
        eapply Forall_impl; [|exact Hresp].
        intros resp [->|(r' & -> & Hr')]; [left; reflexivity|].
        right; exists r'; split; [reflexivity|right; exact Hr'].
      * intros Hnd' Hfresh; apply NoDup_cons_iff in Hnd' as [He Hnd'].
        destruct Hall as [Hresps Hlen]; [exact Hnd'| |].
        -- intros e' He'; apply has_id_app; [apply Hfresh; right; exact He'|].
           simpl; intros E; apply He; rewrite E; apply in_map; exact He'.
        -- simpl; rewrite Hresps, Hlen; split; reflexivity.
Qed.

(** C10 (amended). Nothing makes [url] unique: [create] with a URL that
    passes the gate succeeds whenever the database takes the row (no NUL
    byte, an unused identifier, an index entry that fits), whatever rows
    with the same [url] the table already holds. Called any number of
    times with the same URL, each call that succeeds appends one record of
    its own, with that URL and, by the primary key, an [id] that no other
    stored record has; a call whose identifier is taken is refused. With
    identifiers all unused and different every call succeeds. A [list] of a
    table of at most 20 rows then returns every one of the records. *)
Theorem same_url_created_repeatedly (es : list Env) (t : table) (u : string)
  (sm : option string) :
  url_format (trim u) = true -> startsWith (trim u) "https://" = true ->
  has_nul (trim u) = false -> summary_has_nul sm = false ->
  index_row_fits (trim u) = true ->
  NoDup (map id t) ->
  (forall e' t', has_id (cuid e') t' = false ->
     exists r,
       urlSummaryRouter_create e' t' (create_request u sm)
       = (t' ++ [r], OK_record r) /\ url r = trim u /\ id r = cuid e') /\
  exists rs,
    fst (create_each es t (create_request u sm)) = t ++ rs /\
    Forall (fun r => url r = trim u) rs /\
    NoDup (map id (t ++ rs)) /\
    Forall (fun resp => resp = INTERNAL_SERVER_ERROR \/
                        exists r, resp = OK_record r /\ In r rs)
      (snd (create_each es t (create_request u sm))) /\
    (NoDup (map cuid es) ->
     (forall e, In e es -> has_id (cuid e) t = false) ->
     snd (create_each es t (create_request u sm)) = map OK_record rs /\
     length rs = length es) /\
    (forall res, length (t ++ rs) <= 20 ->
       urlSummaryRouter_list (t ++ rs) res -> incl rs res).
Proof.
  intros Hu Hs Hn Hsn Hfit Hnd; split.
  - intros e' t' Hid; eexists; split;
      [apply create_request_ok; assumption|split; reflexivity].
  - destruct (create_each_cases es t u sm Hu Hs Hn Hsn Hfit Hnd)
      as (rs & Ht & Hurl & Hids & Hresp & Hall).
    exists rs; repeat split; auto; try (apply Hall; assumption).
    intros res Hlen (l & Hp & _ & ->) r Hr.
    rewrite firstn_all2 by (rewrite (Permutation_length Hp); exact Hlen).
    eapply Permutation_in; [symmetry; exact Hp|].
    apply in_or_app; right; exact Hr.
Qed.

(** ** What the two procedures keep *)

(** X1. A call never removes or changes a row: after any sequence of calls
    the table is the table before it followed by the rows added, one at most
    per call. *)
Theorem table_append_only (t t' : table) :
  steps t t' ->
  exists added, t' = t ++ added /\
    (forall r, In r t -> In r t') /\ length t <= length t'.
Proof.
  induction 1 as [t|t t' c resp t'' _ (added & -> & _) Hstep].
  - exists []; rewrite app_nil_r; auto.
  - assert (E : exists added', t'' = t ++ added').
    { destruct (step_table_cases _ _ _ _ Hstep) as [->|(r & -> & _)].
      - exists added; reflexivity.
      - exists (added ++ [r]); rewrite app_assoc; reflexivity. }
    destruct E as (added' & ->); exists added'; split; [reflexivity|].
    split; [intros r Hr; apply in_or_app; left; exact Hr|].
    rewrite length_app; lia.
Qed.

(** X2. The primary key holds in every reachable table, and with it in
    every answer of [list]: no two rows share an [id], and no record is
    returned twice. *)
Theorem ids_unique_in_table_and_list (t : table) :
  reachable t ->
  NoDup (map id t) /\
  forall res, urlSummaryRouter_list t res -> NoDup (map id res) /\ NoDup res.
Proof.
  intros Hr; pose proof (reachable_ids_unique _ Hr) as Hnd.
  split; [exact Hnd|]; intros res (l & Hp & _ & ->).
  assert (Hl : NoDup (map id l))
    by (eapply Permutation_NoDup;
        [apply Permutation_map; symmetry; exact Hp|exact Hnd]).
  assert (Hf : NoDup (map id (firstn 20 l))).
  { rewrite <- (firstn_skipn 20 l), map_app in Hl.
    eapply NoDup_app_remove_r; exact Hl. }
  split; [exact Hf|]; eapply NoDup_map_inv; exact Hf.
Qed.

(** X3. Nothing updates a row: in every reachable table each row's
    [updatedAt] is still its [createdAt]. *)
Theorem updatedAt_is_createdAt (t : table) :
  reachable t -> Forall (fun r => updatedAt r = createdAt r) t.
Proof.
  induction 1 as [|t c resp t' _ IH Hstep]; [constructor|].
  destruct Hstep as [t res _|t e raw]; [exact IH|].
  destruct (create_resp_cases e t raw)
    as [(l & _ & _ & ->)|[(i & _ & _ & ->)|(i & _ & _ & _ & _ & _ & ->)]];
    simpl; auto.
  apply Forall_app; split; [exact IH|repeat constructor].
Qed.



Lemma optional_string_success_inv (p : list string) (v : value)
  (s : option string) :
  optional (safeParse z_string) p v = success s <->
  (v = VUndefined /\ s = None) \/ (exists text, v = VString text /\ s = Some text).
Proof.
  split.
  - destruct v; simpl; try discriminate.
    + intros [= <-]; left; auto.
    + intros [= <-]; right; eauto.
  - intros [[-> ->]|(text & -> & ->)]; reflexivity.
Qed.

Lemma create_input_schema_success_iff (raw : value) (u : string)
  (s : option string) :
  create_input_schema raw = success {| input_url := u; input_summary := s |}
  <->
  exists fields typed,
    raw = VObject fields /\ get "url" fields = VString typed /\
    u = trim typed /\
    url_format u = true /\ startsWith u "https://" = true /\
    ((get "summary" fields = VUndefined /\ s = None) \/
     (exists text, get "summary" fields = VString text /\ s = Some text)).
Proof.
  split.
  - unfold create_input_schema; destruct raw; try discriminate.
    destruct (safeParse create_url_schema ["url"] (get "url" fields)) eqn:Eu;
      [|destruct (optional _ _ _); discriminate].
    destruct (optional (safeParse z_string) ["summary"]
                (get "summary" fields)) eqn:Es; [|discriminate].
    intros [= -> ->]; exists fields.
    apply create_url_schema_success_inv in Eu as (typed & Hv & Ht & Hu & Hs).
    apply optional_string_success_inv in Es; exists typed; auto 10.
  - intros (fields & typed & -> & Hv & -> & Hu & Hs & Hsm).
    unfold create_input_schema.
    rewrite Hv, (create_url_schema_accepts _ _ Hu Hs).
    rewrite (proj2 (optional_string_success_inv ["summary"] _ _) Hsm).
    reflexivity.
Qed.

(** X5. [create] answers with a record exactly when the body is an object
    whose [url] is a string with a trimmed text that passes the format
    check and begins with [https://], whose [summary] is absent (or
    [undefined]) or a string, and the database takes the row: no NUL byte
    in the trimmed [url] or in the summary, an identifier that is unused,
    an index entry that fits. The record is then made of the trimmed [url],
    that summary (null when absent) and the environment's [id] and time. *)
Theorem create_succeeds_iff (e : Env) (t : table) (raw : value)
  (r : UrlSummary) :
  snd (urlSummaryRouter_create e t raw) = OK_record r <->
  exists fields typed s,
    raw = VObject fields /\ get "url" fields = VString typed /\
    url_format (trim typed) = true /\
    startsWith (trim typed) "https://" = true /\
    ((get "summary" fields = VUndefined /\ s = None) \/
     (exists text, get "summary" fields = VString text /\ s = Some text)) /\
    has_nul (trim typed) = false /\ summary_has_nul s = false /\
    has_id (cuid e) t = false /\ index_row_fits (trim typed) = true /\
    r = mkUrlSummary (cuid e) (trim typed) s (now e) (now e).
Proof.
  split.
  - destruct (create_resp_cases e t raw)
      as [(l & _ & _ & ->)|[(i & _ & _ & ->)
                           |(i & Hi & Hn & Hsn & Hid & Hfit & ->)]];
      simpl; try discriminate.
    intros [= <-]; destruct i as [u s]; simpl in *.
    apply create_input_schema_success_iff in Hi
      as (fields & typed & -> & Hv & -> & Hu & Hs & Hsm).
    exists fields, typed, s; auto 12.
  - intros (fields & typed & s & -> & Hv & Hu & Hs & Hsm & Hn & Hsn & Hid
            & Hfit & ->).
    assert (Hi : create_input_schema (VObject fields) =
                 success {| input_url := trim typed; input_summary := s |}).
    { apply create_input_schema_success_iff; exists fields, typed; auto 10. }
    unfold urlSummaryRouter_create, prisma_create; rewrite Hi; simpl.
    rewrite Hn, Hsn, Hid, Hfit; reflexivity.
Qed.

Lemma get_other (k k' : string) (v : value) (before after : list (string * value)) :
  k' <> k ->
  get k' (before ++ (k, v) :: after) = get k' (before ++ after).
Proof.
  intros Hne; induction before as [|[k0 v0] before IH]; simpl.
  - apply String.eqb_neq in Hne; rewrite Hne; reflexivity.
  - rewrite IH; reflexivity.
Qed.

(** X6. A field of the body under any other name than [url] and [summary]
    has no effect: with it or without it, [create] answers the same and
    leaves the same table. *)
Theorem create_ignores_other_fields (e : Env) (t : table) (k : string)
  (v : value) (before after : list (string * value)) :
  k <> "url" -> k <> "summary" ->
  urlSummaryRouter_create e t (VObject (before ++ (k, v) :: after)) =
  urlSummaryRouter_create e t (VObject (before ++ after)).
Proof.
  intros Hu Hs; unfold urlSummaryRouter_create, create_input_schema.
  rewrite !get_other by congruence; reflexivity.
Qed.

(** X7. Validation comes before the table is touched: a body refused as a
    bad request is refused with the same issues whatever the table holds and
    whatever identifier and time are at hand, and the table stays as it
    is. *)
Theorem bad_request_whatever_the_table (e : Env) (t : table) (raw : value)
  (l : list issue) :
  snd (urlSummaryRouter_create e t raw) = BAD_REQUEST l ->
  create_input_schema raw = failure l /\
  forall e' t', urlSummaryRouter_create e' t' raw = (t', BAD_REQUEST l).
Proof.
  destruct (create_resp_cases e t raw)
    as [(l' & _ & Hl & ->)|[(i & _ & _ & ->)
                           |(i & _ & _ & _ & _ & _ & ->)]];
    simpl; try discriminate.
  intros [= ->]; split; [exact Hl|].
  intros e' t'; unfold urlSummaryRouter_create; rewrite Hl; reflexivity.
Qed.

(** X8. While the table holds at most 20 rows, [list] returns all of them,
    each once. *)
Theorem list_returns_all_up_to_20 (t : table) (res : list UrlSummary) :
  length t <= 20 -> urlSummaryRouter_list t res -> Permutation res t.
Proof.
  intros Hlen (l & Hp & _ & ->).
  rewrite firstn_all2 by (rewrite (Permutation_length Hp); exact Hlen).
  exact Hp.
Qed.

Lemma newest_first_tail (l1 l2 : list UrlSummary) :
  newest_first (l1 ++ l2) -> newest_first l2.
Proof.
  unfold newest_first; induction l1 as [|x l1 IH]; simpl; [auto|].
  intros H; apply StronglySorted_inv in H as [H _]; auto.
Qed.

(** X9. [list] has no way past the first 20: a row with 20 or more rows
    strictly more recent than it is in no answer. *)
Theorem list_never_returns_beyond_20 (t : table) (r : UrlSummary)
  (res : list UrlSummary) :
  20 <= length (filter (fun x => (createdAt r <? createdAt x)%Z) t) ->
  urlSummaryRouter_list t res -> ~ In r res.
Proof.
  intros Hnewer (l & Hp & Hs & ->) Hin.
  rewrite <- (filter_length_perm _ _ _ Hp) in Hnewer.
  apply in_split in Hin as (a & b & Hab).
  assert (Hlen : length (a ++ r :: b) <= 20)
    by (rewrite <- Hab; apply firstn_le_length).
  rewrite length_app in Hlen; simpl in Hlen.
  rewrite <- (firstn_skipn 20 l), Hab in Hs, Hnewer.
  remember (skipn 20 l) as rest eqn:Erest; clear Erest.
  rewrite <- app_assoc, <- app_comm_cons in Hs, Hnewer.
  apply newest_first_tail in Hs.
  apply StronglySorted_inv in Hs as [_ Hs].
  rewrite filter_app in Hnewer; cbn [filter] in Hnewer.
  rewrite Z.ltb_irrefl in Hnewer.
  assert (Hrest : filter (fun x => (createdAt r <? createdAt x)%Z)
                    (b ++ rest) = []).
  { clear - Hs; revert Hs; generalize (b ++ rest); intros m Hs.
    induction Hs as [|x m Hx _ IH]; [reflexivity|].
    simpl; destruct (createdAt r <? createdAt x)%Z eqn:E; [|exact IH].
    apply Z.ltb_lt in E; lia. }
  rewrite Hrest, app_nil_r in Hnewer.
  pose proof (filter_length_le (fun x => (createdAt r <? createdAt x)%Z) a).
  lia.
Qed.


(** ** Bodies that are refused for their shape *)

(** X10. A [summary] that is present but is no string, null included, makes
    [create] refuse the body with a type issue at [summary], also when the
    [url] is good; nothing is stored. *)
Theorem summary_not_a_string_refused (e : Env) (t : table)
  (fields : list (string * value)) (u : string) :
  get "url" fields = VString u ->
  url_format (trim u) = true -> startsWith (trim u) "https://" = true ->
  get "summary" fields <> VUndefined ->
  (forall text, get "summary" fields <> VString text) ->
  urlSummaryRouter_create e t (VObject fields) =
  (t, BAD_REQUEST [mkIssue (invalid_type "string") ["summary"]]).
Proof.
  intros Hv Hu Hs Hundef Hstr.
  unfold urlSummaryRouter_create, create_input_schema.
  rewrite Hv, (create_url_schema_accepts _ _ Hu Hs).
  destruct (get "summary" fields); try reflexivity.
  - elim Hundef; reflexivity.
  - elim (Hstr s); reflexivity.
Qed.

(** X11. A body that is no object is refused with a type issue at the root;
    an object whose [url] is missing or is no string is refused with a type
    issue at [url] first, neither check having run on it, followed at most
    by issues at [summary]. In both cases nothing is stored. *)
Theorem url_missing_or_not_a_string_refused (e : Env) (t : table) :
  (forall raw, (forall fields, raw <> VObject fields) ->
     urlSummaryRouter_create e t raw =
     (t, BAD_REQUEST [mkIssue (invalid_type "object") []])) /\
  (forall fields, (forall u, get "url" fields <> VString u) ->
     exists rest,
       urlSummaryRouter_create e t (VObject fields) =
       (t, BAD_REQUEST (mkIssue (invalid_type "string") ["url"] :: rest)) /\
       Forall (fun i => path i = ["summary"]) rest).
Proof.
  split.
  - intros raw Hraw; unfold urlSummaryRouter_create, create_input_schema.
    destruct raw; try reflexivity; elim (Hraw fields); reflexivity.
  - intros fields Hu; unfold urlSummaryRouter_create, create_input_schema.
    assert (E : safeParse create_url_schema ["url"] (get "url" fields) =
                failure [mkIssue (invalid_type "string") ["url"]])
      by (destruct (get "url" fields); try reflexivity; elim (Hu s); reflexivity).
    rewrite E.
    destruct (get "summary" fields); simpl; eexists; split;
      try reflexivity; repeat constructor.
Qed.


(** ** The gate, read from its verdict *)

Lemma gate_is_success (p : list string) (s : string) :
  is_success (safeParse create_url_schema p (VString s)) =
  url_format (trim s) && startsWith (trim s) "https://".
Proof.
  unfold safeParse; rewrite run_checks_create_url_schema.
  destruct (url_format (trim s)); simpl.
  - destruct (startsWith (trim s) "https://"); reflexivity.
  - destruct (startsWith s "https://"); reflexivity.
Qed.

(** X12. The gate accepts a value exactly when it is a string whose
    trimmed text passes the format check and begins with [https://], and
    what it hands on is that trimmed text; nothing that fails a check or is
    not a string is accepted. What it has accepted it accepts again, as it
    is. *)
Theorem gate_accepts_iff (p : list string) (v : value) (d : string) :
  (safeParse create_url_schema p v = success d <->
   exists s, v = VString s /\ d = trim s /\
             url_format d = true /\ startsWith d "https://" = true) /\
  (safeParse create_url_schema p v = success d ->
   trim d = d /\ safeParse create_url_schema p (VString d) = success d).
Proof.
  assert (Hiff : safeParse create_url_schema p v = success d <->
            exists s, v = VString s /\ d = trim s /\
                      url_format d = true /\ startsWith d "https://" = true).
  { split; [apply create_url_schema_success_inv|].
    intros (s & -> & -> & Hu & Hs); apply create_url_schema_accepts;
      assumption. }
  split; [exact Hiff|].
  intros H; apply Hiff in H as (s & _ & -> & Hu & Hs).
  pose proof (trim_idempotent s) as Hidem; split; [exact Hidem|].
  rewrite <- Hidem at 2; apply create_url_schema_accepts;
    rewrite Hidem; assumption.
Qed.

Lemma no_white_space_before_h (rest : list ascii) :
  code_at_head white_space ("h"%char :: rest) = 0 /\
  code_at_head white_space ("H"%char :: rest) = 0.
Proof. split; reflexivity. Qed.

(** X13. The scheme test is a test on the first eight characters of the
    trimmed text, as written: whatever the format check says, a string of
    fewer than eight bytes is refused, and so is every string that begins
    with [http://] or with [HTTPS://]; an accepted string is handed on as
    its trimmed text, which is [https://] followed by the rest. *)
Theorem gate_prefix_is_literal (p : list string) :
  (forall s, String.length s < 8 ->
     is_success (safeParse create_url_schema p (VString s)) = false) /\
  (forall rest,
     is_success (safeParse create_url_schema p
                   (VString (String.append "http://" rest))) = false) /\
  (forall rest,
     is_success (safeParse create_url_schema p
                   (VString (String.append "HTTPS://" rest))) = false) /\
  (forall s d, safeParse create_url_schema p (VString s) = success d ->
     d = trim s /\
     exists rest, d = String.append "https://" rest).
Proof.
  assert (Hpre : forall s,
            is_success (safeParse create_url_schema p (VString s)) = true ->
            startsWith (trim s) "https://" = true).
  { intros s; rewrite gate_is_success, andb_true_iff; tauto. }
  split; [|split; [|split]].
  - intros s Hlen.
    destruct (is_success (safeParse create_url_schema p (VString s))) eqn:E;
      [|reflexivity].
    apply Hpre, prefix_app in E as [rest E].
    pose proof (trim_length s) as Hle; rewrite E in Hle; simpl in Hle; lia.
  - intros rest.
    destruct (is_success (safeParse create_url_schema p
                (VString (String.append "http://" rest)))) eqn:E;
      [|reflexivity].
    apply Hpre, startsWith_trim in E; [discriminate E|].
    apply no_white_space_before_h.
  - intros rest.
    destruct (is_success (safeParse create_url_schema p
                (VString (String.append "HTTPS://" rest)))) eqn:E;
      [|reflexivity].
    apply Hpre, startsWith_trim in E; [discriminate E|].
    apply no_white_space_before_h.
  - intros s d H.
    apply create_url_schema_success_inv in H as (s' & [= <-] & -> & _ & Hs).
    split; [reflexivity|apply prefix_app; exact Hs].
Qed.

(** ** The form *)

(** X14. A record made through the form has the trimmed text typed as its
    [url] and no summary: what [onSubmit] sends is the one field [url] with
    the text that its check handed on, and [create], when the database
    takes the row, stores it with [summary] null. *)
Theorem form_record_has_no_summary (e : Env) (t : table) (typed : string)
  (raw : value) :
  onSubmit typed = mutate raw ->
  has_nul (trim typed) = false -> has_id (cuid e) t = false ->
  index_row_fits (trim typed) = true ->
  raw = VObject [("url", VString (trim typed))] /\
  urlSummaryRouter_create e t raw =
  (t ++ [mkUrlSummary (cuid e) (trim typed) None (now e) (now e)],
   OK_record (mkUrlSummary (cuid e) (trim typed) None (now e) (now e))).
Proof.
  unfold onSubmit; intros H Hn Hid Hfit.
  destruct (safeParse urlSchema [] (VString typed)) as [d|l] eqn:E;
    [|discriminate].
  apply (create_url_schema_success_inv []) in E
    as (s & [= <-] & -> & Hu & Hs).
  injection H as <-; split; [reflexivity|].
  pose proof (create_request_ok e t (trim typed) None) as Hok.
  rewrite trim_idempotent in Hok; apply Hok; auto.
Qed.

(** X15. The submit button is disabled exactly when a request is pending
    or the text is empty or white space throughout; with no request pending
    it is therefore enabled for every text that the form's check
    accepts. *)
Theorem submit_disabled_iff (typed : string) (isPending : bool) :
  (submit_disabled typed isPending = true <->
   isPending = true \/ all_white_space typed) /\
  (is_success (safeParse urlSchema [] (VString typed)) = true ->
   submit_disabled typed false = false).
Proof.
  split.
  - unfold submit_disabled.
    rewrite orb_true_iff, String.eqb_eq, trim_empty_iff; tauto.
  - intros Hok; unfold submit_disabled; rewrite orb_false_r.
    apply String.eqb_neq; intros E.
    change (safeParse urlSchema [] (VString typed))
      with (safeParse create_url_schema [] (VString typed)) in Hok.
    rewrite gate_is_success, E in Hok.
    rewrite andb_true_iff in Hok; destruct Hok as [_ Hok]; discriminate Hok.
Qed.

(** ** The shell: the collapsed state of the sidebar *)

Lemma persist_collapsed_works (st : Storage) (b : bool) :
  write_throws st = false ->
  read_throws (persist_collapsed st b) = read_throws st /\
  write_throws (persist_collapsed st b) = false /\
  items (persist_collapsed st b) SIDEBAR_COLLAPSED_KEY
  = Some (if b then "1" else "0") /\
  forall k, k <> SIDEBAR_COLLAPSED_KEY ->
    items (persist_collapsed st b) k = items st k.
Proof.
  intros Hw; unfold persist_collapsed, setItem; rewrite Hw; simpl.
  repeat split; auto.
  intros k Hk; apply String.eqb_neq in Hk; rewrite Hk; reflexivity.
Qed.

Lemma read_after_persist (st : Storage) (b : bool) :
  read_throws st = false -> write_throws st = false ->
  readInitialCollapsedState (Some (persist_collapsed st b)) = b.
Proof.
  intros Hr Hw.
  destruct (persist_collapsed_works st b Hw) as (Hr' & _ & Hi & _).
  unfold readInitialCollapsedState, getItem; rewrite Hr', Hr, Hi.
  destruct b; reflexivity.
Qed.

Lemma click_toggle_works (clicks : nat) (st : Storage) (v : bool) :
  read_throws st = false -> write_throws st = false ->
  readInitialCollapsedState (Some st) = v ->
  readInitialCollapsedState (Some (fst (click_toggle clicks st v)))
  = snd (click_toggle clicks st v) /\
  snd (click_toggle clicks st v) = xorb v (Nat.odd clicks) /\
  forall k, k <> SIDEBAR_COLLAPSED_KEY ->
    items (fst (click_toggle clicks st v)) k = items st k.
Proof.
  revert st v; induction clicks as [|n IH]; intros st v Hr Hw Hv.
  - simpl; rewrite xorb_false_r; auto.
  - cbn [click_toggle]; unfold handleToggleCollapsed.
    destruct (persist_collapsed_works st (negb v) Hw) as (Hr' & Hw' & _ & Hk).
    destruct (IH (persist_collapsed st (negb v)) (negb v))
      as (H1 & H2 & H3); [congruence|exact Hw'|
                          apply read_after_persist; assumption|].
    split; [exact H1|]; split.
    + rewrite H2, Nat.odd_succ, <- Nat.negb_odd.
      destruct v, (Nat.odd n); reflexivity.
    + intros k Hne; rewrite H3, Hk by exact Hne; reflexivity.
Qed.

(** X16. With a storage that works, the sidebar comes back as it was left:
    after a visit with any number of clicks on the toggle, the state read
    on the next load is the state the visit ended in, which is the state it
    began in flipped once per click; no other key of the storage is
    touched. *)
Theorem sidebar_state_remembered (clicks : nat) (st : Storage) :
  read_throws st = false -> write_throws st = false ->
  readInitialCollapsedState (Some (fst (visit clicks st)))
  = snd (visit clicks st) /\
  snd (visit clicks st)
  = xorb (readInitialCollapsedState (Some st)) (Nat.odd clicks) /\
  forall k, k <> SIDEBAR_COLLAPSED_KEY ->
    items (fst (visit clicks st)) k = items st k.
Proof.
  intros Hr Hw; unfold visit.
  set (initial := readInitialCollapsedState (Some st)).
  destruct (persist_collapsed_works st initial Hw) as (Hr' & Hw' & _ & Hk).
  destruct (click_toggle_works clicks (persist_collapsed st initial) initial)
    as (H1 & H2 & H3); [congruence|exact Hw'|
                        apply read_after_persist; assumption|].
  split; [exact H1|]; split; [exact H2|].
  intros k Hne; rewrite H3, Hk by exact Hne; reflexivity.
Qed.

Lemma click_toggle_write_throws (clicks : nat) (st : Storage) (v : bool) :
  write_throws st = true ->
  click_toggle clicks st v = (st, xorb v (Nat.odd clicks)).
Proof.
  intros Hw; revert v; induction clicks as [|n IH]; intros v.
  - simpl; rewrite xorb_false_r; reflexivity.
  - cbn [click_toggle]; unfold handleToggleCollapsed, persist_collapsed, setItem.
    rewrite Hw, IH, Nat.odd_succ, <- Nat.negb_odd.
    destruct v, (Nat.odd n); reflexivity.
Qed.

(** X17. When the storage fails the sidebar falls back to expanded and
    nothing breaks: the state read on load is collapsed only if reading
    works and the key holds exactly ["1"] (no window, a throwing read, a
    missing key or any other value give expanded); when writing throws, the
    toggle still flips the state during the visit but the storage is left
    as it was. *)
Theorem sidebar_storage_fallbacks :
  readInitialCollapsedState None = false /\
  (forall st, readInitialCollapsedState (Some st) = true <->
     read_throws st = false /\ items st SIDEBAR_COLLAPSED_KEY = Some "1") /\
  (forall clicks st, write_throws st = true ->
     visit clicks st =
     (st, xorb (readInitialCollapsedState (Some st)) (Nat.odd clicks))).
Proof.
  split; [reflexivity|]; split.
  - intros st; unfold readInitialCollapsedState, getItem.
    destruct (read_throws st); [split; [discriminate|intros [H _]; discriminate]|].
    destruct (items st SIDEBAR_COLLAPSED_KEY) as [v|].
    + rewrite String.eqb_eq; split; [intros ->; auto|intros [_ [= ->]]; reflexivity].
    + split; [discriminate|intros [_ H]; discriminate].
  - intros clicks st Hw; unfold visit.
    assert (E : forall b, persist_collapsed st b = st)
      by (intros b; unfold persist_collapsed, setItem; rewrite Hw; reflexivity).
    rewrite E; apply click_toggle_write_throws; exact Hw.
Qed.


(** ** Listing under a clock that only moves forward *)

Lemma oldest_first_rev (t : table) :
  StronglySorted (fun a b => (createdAt a < createdAt b)%Z) t ->
  newest_first (rev t) /\ NoDup (map createdAt t).
Proof.
  induction 1 as [|x t _ [IHs IHn] Hx]; simpl.
  - split; constructor.
  - rewrite Forall_forall in Hx; split.
    + clear IHn; unfold newest_first in *.
      assert (Hall : Forall (fun y => (createdAt x <= createdAt y)%Z) (rev t)).
      { apply Forall_forall; intros y Hy; apply in_rev in Hy.
        specialize (Hx _ Hy); lia. }
      revert IHs Hall; generalize (rev t); intros l IHs Hall.
      induction IHs as [|y l Hs IH Hy]; simpl.
      * repeat constructor.
      * apply Forall_cons_iff in Hall as [Hyx Hall].
        constructor; [apply IH; exact Hall|].
        apply Forall_app; split; [exact Hy|].
        constructor; [exact Hyx|constructor].
    + constructor; [|exact IHn].
      intros Hin; apply in_map_iff in Hin as (y & E & Hy).
      specialize (Hx _ Hy); lia.
Qed.

(** X18. When the rows lie in the table by strictly increasing [createdAt],
    as they do when each [create] comes with a later time than the rows
    before it, [list] has one answer only: the last 20 rows inserted, the
    latest first. A successful [create] at a time later than every stored
    row keeps the table that way. *)
Theorem list_with_increasing_clock (t : table) :
  StronglySorted (fun a b => (createdAt a < createdAt b)%Z) t ->
  (forall res, urlSummaryRouter_list t res <-> res = firstn 20 (rev t)) /\
  (forall e raw,
     Forall (fun x => (createdAt x < now e)%Z) t ->
     StronglySorted (fun a b => (createdAt a < createdAt b)%Z)
       (fst (urlSummaryRouter_create e t raw))).
Proof.
  intros Hs; destruct (oldest_first_rev t Hs) as [Hrev Hnd]; split.
  - assert (Hans : urlSummaryRouter_list t (firstn 20 (rev t))).
    { exists (rev t); split; [symmetry; apply Permutation_rev|].
      split; [exact Hrev|reflexivity]. }
    intros res; split; [|intros ->; exact Hans].
    intros Hres; eapply findMany_unique; eassumption.
  - intros e raw Hlt.
    destruct (create_resp_cases e t raw)
      as [(l & _ & _ & ->)|[(i & _ & _ & ->)|(i & _ & _ & _ & _ & _ & ->)]];
      simpl; auto.
    clear - Hs Hlt; induction Hs as [|x t Hs IH Hx]; simpl.
    + repeat constructor.
    + apply Forall_cons_iff in Hlt as [Hxe Hlt].
      constructor; [apply IH; exact Hlt|].
      apply Forall_app; split; [exact Hx|].
      constructor; [exact Hxe|constructor].
Qed.

End Gate.

(** ** The model run on examples *)

(** The scenarios of the specification. *)
Example create_article_no_summary :
  urlSummaryRouter_create sample_url_format sample_index_row_fits env_a []
    (create_request article None)
  = ([row_a], OK_record row_a).
Proof. reflexivity. Qed.

Example create_http_rejected :
  urlSummaryRouter_create sample_url_format sample_index_row_fits env_a
    [row_b] (create_request "http://example.com" None)
  = ([row_b], BAD_REQUEST [mkIssue SchemeNotAllowed ["url"]]).
Proof. reflexivity. Qed.

(** Both checks run on a string that is no URL; the format issue is the
    first one. *)
Example create_not_a_url_rejected :
  urlSummaryRouter_create sample_url_format sample_index_row_fits env_a
    [row_b] (create_request "not-a-url" None)
  = ([row_b], BAD_REQUEST [mkIssue InvalidUrl ["url"];
                           mkIssue SchemeNotAllowed ["url"]]).
Proof. reflexivity. Qed.

(** White space at the ends goes before the checks see the text, and the
    trimmed text is what is stored. *)
Example create_padded_url_trimmed :
  trim padded_article = article /\
  trim nbsp_article = article /\
  urlSummaryRouter_create sample_url_format sample_index_row_fits env_a []
    (create_request padded_article None)
  = ([row_a], OK_record row_a) /\
  urlSummaryRouter_create sample_url_format sample_index_row_fits env_a []
    (create_request nbsp_article None)
  = ([row_a], OK_record row_a).
Proof. repeat split. Qed.

(** A NUL byte passes validation and is refused by the database. *)
Example create_nul_refused :
  urlSummaryRouter_create sample_url_format sample_index_row_fits env_a
    [row_b] (create_request article (Some text_with_nul))
  = ([row_b], INTERNAL_SERVER_ERROR) /\
  urlSummaryRouter_create sample_url_format sample_index_row_fits env_a
    [row_b] (create_request url_with_nul None)
  = ([row_b], INTERNAL_SERVER_ERROR).
Proof. split; reflexivity. Qed.

(** Bodies no client of the form would send. *)
Example create_malformed_bodies_rejected :
  urlSummaryRouter_create sample_url_format sample_index_row_fits env_a []
    VNull
  = ([], BAD_REQUEST [mkIssue (invalid_type "object") []]) /\
  urlSummaryRouter_create sample_url_format sample_index_row_fits env_a []
    (VObject [("url", VNumber 7)])
  = ([], BAD_REQUEST [mkIssue (invalid_type "string") ["url"]]) /\
  urlSummaryRouter_create sample_url_format sample_index_row_fits env_a []
    (VObject [("summary", VString "no url")])
  = ([], BAD_REQUEST [mkIssue (invalid_type "string") ["url"]]) /\
  urlSummaryRouter_create sample_url_format sample_index_row_fits env_a []
    (VObject [("url", VString article); ("summary", VNull)])
  = ([], BAD_REQUEST [mkIssue (invalid_type "string") ["summary"]]).
Proof. repeat split. Qed.

Example list_three_take_two :
  let A := mkUrlSummary "A" article None 1 1 in
  let B := mkUrlSummary "B" article None 2 2 in
  let C := mkUrlSummary "C" article None 3 3 in
  findMany_run 2 [A; B; C] = [C; B].
Proof. reflexivity. Qed.

(** Two rows created on the same clock reading: the query as written is
    answered by either order; which one the database gives is not settled
    by the program. *)
Lemma findMany_ties_either_order :
  createdAt row_a = createdAt row_c /\
  findMany 20 [row_a; row_c] [row_a; row_c] /\
  findMany 20 [row_a; row_c] [row_c; row_a].
Proof.
  split; [reflexivity|]; split.
  - exists [row_a; row_c]; split; [reflexivity|].
    split; [|reflexivity]; repeat constructor; simpl; lia.
  - exact (findMany_run_answer 20 [row_a; row_c]).
Qed.

Example onSubmit_examples :
  onSubmit sample_url_format article
  = mutate (VObject [("url", VString article)]) /\
  onSubmit sample_url_format nbsp_article
  = mutate (VObject [("url", VString article)]) /\
  onSubmit sample_url_format "http://example.com"
  = setError (Some SchemeNotAllowed) /\
  onSubmit sample_url_format "not-a-url" = setError (Some InvalidUrl).
Proof. repeat split. Qed.

(** The button is disabled for a text of white space, whichever. *)
Example submit_disabled_examples :
  submit_disabled "" false = true /\
  submit_disabled (string_of_list_ascii (bytes [32; 227; 128; 128; 239; 187; 191; 9]))
    false = true /\
  submit_disabled nbsp_article false = false /\
  submit_disabled article true = true.
Proof. repeat split. Qed.

Lemma reachable_one (f g : string -> bool) (t : table) (e : Env)
  (raw : value) :
  reachable f g t -> reachable f g (fst (urlSummaryRouter_create f g e t raw)).
Proof.
  intros H; eapply reachable_step; [exact H|apply step_create].
Defined.

Lemma reachable_sample :
  reachable sample_url_format sample_index_row_fits [row_a; row_c].
Proof.
  apply (reachable_one sample_url_format sample_index_row_fits [row_a] env_c
           (create_request article None)).
  apply (reachable_one sample_url_format sample_index_row_fits [] env_a
           (create_request article None)).
  constructor.
Defined.

(** ** Instances of the theorems *)

Lemma reachable_urls_valid_https_witness :
  reachable sample_url_format sample_index_row_fits [row_a; row_c] /\
  Forall (fun r => sample_url_format (url r) = true /\
                   startsWith (url r) "https://" = true /\
                   scheme_of (url r) = Some "https") [row_a; row_c].
Proof.
  split; [exact reachable_sample|].
  exact (proj1 (reachable_urls_valid_https sample_url_format
                  sample_index_row_fits _ reachable_sample)).
Defined.

Lemma gate_checks_in_order_witness :
  rejection_reason
    (safeParse (create_url_schema sample_url_format) ["url"]
       (VString "not-a-url")) = Some InvalidUrl /\
  map code
    (issues_of (safeParse (create_url_schema sample_url_format) ["url"]
       (VString " ftp://example.com "))) = [SchemeNotAllowed].
Proof.
  split.
  - pose proof (gate_checks_in_order sample_url_format "not-a-url") as H.
    cbv zeta in H; apply (proj1 (proj2 H)); reflexivity.
  - pose proof (gate_checks_in_order sample_url_format " ftp://example.com ")
      as H.
    cbv zeta in H; apply (proj1 (proj2 (proj2 H)));
      [reflexivity|discriminate].
Defined.


Lemma list_newest_first_at_most_20_witness :
  length many_rows = 22 /\
  urlSummaryRouter_list many_rows (findMany_run 20 many_rows) /\
  newest_first (findMany_run 20 many_rows) /\
  length (findMany_run 20 many_rows) <= 20.
Proof.
  destruct (list_newest_first_at_most_20 many_rows) as [H0 H].
  destruct (H _ H0) as (Hs & Hl & _).
  split; [reflexivity|]; split; [exact H0|]; split; assumption.
Defined.

Lemma create_then_list_new_record_witness :
  exists res,
    OK_list [row_a; row_b] = OK_list res /\
    (Forall (fun x => (createdAt x < createdAt row_a)%Z) [row_b] ->
     hd_error res = Some row_a) /\
    (length (filter (fun x => (createdAt row_a <=? createdAt x)%Z) [row_b])
     < 20 -> In row_a res).
Proof.
  apply (create_then_list_new_record sample_url_format sample_index_row_fits
           [row_b] [row_b; row_a] [row_b; row_a] env_a
           (create_request article None) row_a (OK_list [row_a; row_b])).
  - exact (step_create sample_url_format sample_index_row_fits [row_b] env_a
             (create_request article None)).
  - constructor; exact (findMany_run_answer 20 [row_b; row_a]).
Defined.

Lemma create_summary_null_or_given_witness :
  (exists r,
     urlSummaryRouter_create sample_url_format sample_index_row_fits env_a []
       (create_request "https://example.com/article" None)
     = ([] ++ [r], OK_record r) /\ url r = article /\ summary r = None) /\
  (exists r,
     urlSummaryRouter_create sample_url_format sample_index_row_fits env_a []
       (create_request "https://example.com" (Some "A test page"))
     = ([] ++ [r], OK_record r) /\ url r = "https://example.com" /\
     summary r = Some "A test page").
Proof.
  split.
  - apply (create_summary_null_or_given sample_url_format
             sample_index_row_fits env_a [] article); reflexivity.
  - apply (create_summary_null_or_given sample_url_format
             sample_index_row_fits env_a [] "https://example.com");
      reflexivity.
Defined.

Lemma summary_stored_verbatim_witness :
  optional (safeParse z_string) ["summary"] (VString "") = success (Some "") /\
  (has_nul "" = false ->
   exists r,
     urlSummaryRouter_create sample_url_format sample_index_row_fits env_a []
       (create_request article (Some ""))
     = ([] ++ [r], OK_record r) /\ summary r = Some "") /\
  (has_nul "" = true ->
   urlSummaryRouter_create sample_url_format sample_index_row_fits env_a []
     (create_request article (Some ""))
   = ([], INTERNAL_SERVER_ERROR)) /\
  (exists r0 r1,
     urlSummaryRouter_create sample_url_format sample_index_row_fits env_a []
       (create_request article (Some ""))
     = ([] ++ [r0], OK_record r0) /\
     urlSummaryRouter_create sample_url_format sample_index_row_fits env_a []
       (create_request article None)
     = ([] ++ [r1], OK_record r1) /\
     summary r0 = Some "" /\ summary r1 = None /\ summary r0 <> summary r1).
Proof.
  apply (summary_stored_verbatim sample_url_format sample_index_row_fits
           env_a [] article ""); reflexivity.
Defined.

Lemma same_url_created_repeatedly_witness :
  exists rs,
    fst (create_each sample_url_format sample_index_row_fits
           [env_a; env_b; env_c] [] (create_request article None))
    = [] ++ rs /\
    Forall (fun r => url r = article) rs /\
    NoDup (map id ([] ++ rs)) /\
    length rs = 3.
Proof.
  destruct (same_url_created_repeatedly sample_url_format
              sample_index_row_fits [env_a; env_b; env_c] [] article None)
    as (_ & rs & Ht & Hurl & Hids & _ & Hall & _);
    try reflexivity; [constructor|].
  exists rs; split; [exact Ht|]; split; [exact Hurl|]; split; [exact Hids|].
  apply Hall; [|intros e _; reflexivity].
  repeat constructor; simpl; intuition discriminate.
Defined.

(** ** Where the statements of the specification stop holding *)

(** A string that is no URL and does not begin with [https://]: the answer
    of [create] carries the scheme issue next to the format issue. *)
Lemma scheme_issue_on_invalid_string :
  sample_url_format (trim "not-a-url") = false /\
  urlSummaryRouter_create sample_url_format sample_index_row_fits env_a []
    (create_request "not-a-url" None)
  = ([], BAD_REQUEST [mkIssue InvalidUrl ["url"];
                      mkIssue SchemeNotAllowed ["url"]]) /\
  In SchemeNotAllowed
    (map code
       (issues_of (safeParse (create_url_schema sample_url_format) ["url"]
          (VString "not-a-url")))).
Proof.
  split; [reflexivity|]; split; [reflexivity|].
  right; left; reflexivity.
Qed.


(** A stored row more recent than the new one: fewer than 20 rows are newer
    than the record just created, yet every answer of [list] starts with the
    older insertion. *)
Lemma create_then_list_newer_row_first :
  reachable sample_url_format sample_index_row_fits [row_a] /\
  length (filter (fun x => (createdAt row_b <? createdAt x)%Z) [row_a]) < 20 /\
  step sample_url_format sample_index_row_fits [row_a]
    (call_create env_b (create_request article None))
    (OK_record row_b) [row_a; row_b] /\
  step sample_url_format sample_index_row_fits [row_a; row_b] call_list
    (OK_list [row_a; row_b]) [row_a; row_b] /\
  (forall res, urlSummaryRouter_list [row_a; row_b] res ->
     hd_error res = Some row_a) /\
  Some row_a <> Some row_b.
Proof.
  split.
  { apply (reachable_one sample_url_format sample_index_row_fits [] env_a
             (create_request article None)); constructor. }
  split; [simpl; lia|].
  split.
  { exact (step_create sample_url_format sample_index_row_fits [row_a] env_b
             (create_request article None)). }
  split.
  { constructor; exact (findMany_run_answer 20 [row_a; row_b]). }
  split; [|discriminate].
  intros res Hres.
  apply (findMany_newest_is_head 19 [row_b] row_a).
  - repeat constructor.
  - eapply findMany_perm; [|exact Hres]; apply perm_swap.
Qed.

(** The spec's scenario of a summary, with a NUL byte in the text: the URL
    passes the gate, the summary is a string, and [create] answers with a
    server error and stores nothing. *)
Lemma summary_with_nul_refused :
  sample_url_format "https://example.com" = true /\
  urlSummaryRouter_create sample_url_format sample_index_row_fits env_a []
    (create_request "https://example.com" (Some text_with_nul))
  = ([], INTERNAL_SERVER_ERROR).
Proof. split; reflexivity. Qed.

(** A summary with a NUL byte passes validation as it is, and is not
    stored: the table is as it was. *)
Lemma summary_with_nul_not_stored :
  optional (safeParse z_string) ["summary"] (VString text_with_nul)
  = success (Some text_with_nul) /\
  create_input_schema sample_url_format
    (create_request article (Some text_with_nul))
  = success {| input_url := article; input_summary := Some text_with_nul |} /\
  urlSummaryRouter_create sample_url_format sample_index_row_fits env_a
    [row_b] (create_request article (Some text_with_nul))
  = ([row_b], INTERNAL_SERVER_ERROR).
Proof. repeat split. Qed.

(** A URL that passes the gate and that no call of [create] gets stored,
    whatever the identifier and the table: its path holds a NUL byte. *)
Lemma url_with_nul_never_created :
  sample_url_format (trim url_with_nul) = true /\
  startsWith (trim url_with_nul) "https://" = true /\
  safeParse (create_url_schema sample_url_format) ["url"]
    (VString url_with_nul) = success url_with_nul /\
  forall e t,
    urlSummaryRouter_create sample_url_format sample_index_row_fits e t
      (create_request url_with_nul None)
    = (t, INTERNAL_SERVER_ERROR).
Proof. repeat split. Qed.

(** ** Instances of the further properties *)

Lemma table_append_only_witness :
  exists added,
    [row_b; row_a] = [row_b] ++ added /\
    (forall r, In r [row_b] -> In r [row_b; row_a]) /\
    length [row_b] <= length [row_b; row_a].
Proof.
  apply (table_append_only sample_url_format sample_index_row_fits
           [row_b] [row_b; row_a]).
  eapply steps_step; [apply steps_refl|].
  exact (step_create sample_url_format sample_index_row_fits [row_b] env_a
           (create_request article None)).
Defined.

Lemma ids_unique_in_table_and_list_witness :
  reachable sample_url_format sample_index_row_fits [row_a; row_c] /\
  NoDup (map id [row_a; row_c]) /\
  forall res, urlSummaryRouter_list [row_a; row_c] res ->
    NoDup (map id res) /\ NoDup res.
Proof.
  split; [exact reachable_sample|].
  exact (ids_unique_in_table_and_list sample_url_format sample_index_row_fits
           _ reachable_sample).
Defined.

Lemma updatedAt_is_createdAt_witness :
  reachable sample_url_format sample_index_row_fits [row_a; row_c] /\
  Forall (fun r => updatedAt r = createdAt r) [row_a; row_c].
Proof.
  split; [exact reachable_sample|].
  exact (updatedAt_is_createdAt sample_url_format sample_index_row_fits
           _ reachable_sample).
Defined.

Lemma create_ignores_other_fields_witness :
  urlSummaryRouter_create sample_url_format sample_index_row_fits env_a
    [row_b]
    (VObject ([("url", VString article)] ++
              ("id", VString "ckv0b") :: [("summary", VString "mine")]))
  = urlSummaryRouter_create sample_url_format sample_index_row_fits env_a
      [row_b]
      (VObject ([("url", VString article)] ++
                [("summary", VString "mine")])).
Proof.
  apply (create_ignores_other_fields sample_url_format sample_index_row_fits
           env_a [row_b] "id" (VString "ckv0b") [("url", VString article)]
           [("summary", VString "mine")]); discriminate.
Defined.

Lemma bad_request_whatever_the_table_witness :
  create_input_schema sample_url_format
    (create_request "http://example.com" None)
  = failure [mkIssue SchemeNotAllowed ["url"]] /\
  forall e' t',
    urlSummaryRouter_create sample_url_format sample_index_row_fits e' t'
      (create_request "http://example.com" None)
    = (t', BAD_REQUEST [mkIssue SchemeNotAllowed ["url"]]).
Proof.
  apply (bad_request_whatever_the_table sample_url_format
           sample_index_row_fits env_a [row_b]
           (create_request "http://example.com" None)
           [mkIssue SchemeNotAllowed ["url"]]).
  reflexivity.
Defined.

Lemma list_returns_all_up_to_20_witness :
  Permutation [row_a; row_b] [row_b; row_a].
Proof.
  apply (list_returns_all_up_to_20 [row_b; row_a] [row_a; row_b]).
  - simpl; lia.
  - exact (findMany_run_answer 20 [row_b; row_a]).
Defined.

Lemma list_never_returns_beyond_20_witness :
  length many_rows = 22 /\
  ~ In (mkUrlSummary "A" article None 0 0) (findMany_run 20 many_rows).
Proof.
  split; [reflexivity|].
  apply (list_never_returns_beyond_20 many_rows
           (mkUrlSummary "A" article None 0 0) (findMany_run 20 many_rows)).
  - apply Nat.leb_le; reflexivity.
  - exact (findMany_run_answer 20 many_rows).
Defined.

Lemma summary_not_a_string_refused_witness :
  urlSummaryRouter_create sample_url_format sample_index_row_fits env_a
    [row_b] (VObject [("url", VString padded_article); ("summary", VNull)])
  = ([row_b], BAD_REQUEST [mkIssue (invalid_type "string") ["summary"]]).
Proof.
  apply (summary_not_a_string_refused sample_url_format sample_index_row_fits
           env_a [row_b]
           [("url", VString padded_article); ("summary", VNull)]
           padded_article);
    try reflexivity; discriminate.
Defined.

Lemma form_record_has_no_summary_witness :
  VObject [("url", VString article)] = VObject [("url", VString article)] /\
  urlSummaryRouter_create sample_url_format sample_index_row_fits env_a
    [row_b] (VObject [("url", VString article)])
  = ([row_b] ++ [mkUrlSummary (cuid env_a) article None (now env_a) (now env_a)],
     OK_record (mkUrlSummary (cuid env_a) article None (now env_a) (now env_a))).
Proof.
  apply (form_record_has_no_summary sample_url_format sample_index_row_fits
           env_a [row_b] nbsp_article (VObject [("url", VString article)]));
    reflexivity.
Defined.

Lemma sidebar_state_remembered_witness :
  let st := {| read_throws := false; write_throws := false;
               items := fun k => if String.eqb k SIDEBAR_COLLAPSED_KEY
                                 then Some "1" else None |} in
  readInitialCollapsedState (Some (fst (visit 3 st))) = snd (visit 3 st) /\
  snd (visit 3 st) = xorb (readInitialCollapsedState (Some st)) (Nat.odd 3) /\
  forall k, k <> SIDEBAR_COLLAPSED_KEY ->
    items (fst (visit 3 st)) k = items st k.
Proof.
  apply (sidebar_state_remembered 3); reflexivity.
Defined.

Lemma list_with_increasing_clock_witness :
  (forall res, urlSummaryRouter_list [row_b; row_a] res <->
               res = firstn 20 (rev [row_b; row_a])) /\
  (forall e raw,
     Forall (fun x => (createdAt x < now e)%Z) [row_b; row_a] ->
     StronglySorted (fun a b => (createdAt a < createdAt b)%Z)
       (fst (urlSummaryRouter_create sample_url_format sample_index_row_fits
               e [row_b; row_a] raw))).
Proof.
  apply (list_with_increasing_clock sample_url_format sample_index_row_fits
           [row_b; row_a]).
  repeat constructor.
Defined.

Lemma list_twice_same_without_ties_witness :
  [row_b; row_a] = [row_b; row_a] /\
  exists r1 r2,
    OK_list [row_a; row_b] = OK_list r1 /\
    OK_list [row_a; row_b] = OK_list r2 /\
    map createdAt r1 = map createdAt r2 /\
    (NoDup (map createdAt [row_b; row_a]) -> r1 = r2).
Proof.
  apply (list_twice_same_without_ties sample_url_format sample_index_row_fits
           [row_b; row_a] [row_b; row_a] [row_b; row_a]
           (OK_list [row_a; row_b]) (OK_list [row_a; row_b]));
    constructor; exact (findMany_run_answer 20 [row_b; row_a]).
Defined.
